(** * DeCentGit indexer: the attestation replay engine

    A shallow embedding of [indexer/indexer.py] and [indexer/db.py]:
    [verify_signature], the per-transaction body of [process_chain], its
    per-block commit, the cycle with its [try]/[except]/[finally], and
    [setup_database].

    Conventions of the embedding.
    - Values decoded from the node's JSON answer are [json] terms.  Floating
      point numbers are left out.  A Python [str] is a [string] whose
      characters stand for code points below 256.
    - A block envelope is typed: [index] and [timestamp] are integers and
      [transactions] is a list.  Transactions themselves are untyped [json],
      as in the source, which inspects them key by key; the answer of the
      node is either a [RequestException] or a chain of such blocks.
    - The [ecdsa] package is a parameter ([Ecdsa]): its two entry points
      return a value or raise.
    - The SQLite file is a pair of tables that exist ([setup_database] has
      run or not, which shows in the row of [meta]).  The connection follows
      the [sqlite3] module's default transaction control: a writing
      statement opens a transaction, [commit()] makes the connection's view
      durable and [close()] drops whatever was not committed.  A statement
      may fail with [sqlite3.Error]; which one does is a parameter of the
      cycle.  Values bound to the [TEXT] columns go through SQLite's column
      affinity.  A cycle starts with the connection open: a failure of
      [sqlite3.connect], which the source leaves outside its [try], is not
      part of the model, and [setup_database] is described for the case in
      which it returns.
    - Python exceptions are values of [exn]; a computation that raises
      returns [Raise e].
    - The messages printed by the source are not kept, except for the
      exception that building them may raise; the verdict on each
      transaction is recorded in a journal, ghost state that follows the
      transaction it belongs to (staged, then committed or dropped). *)

From Stdlib Require Import ZArith List String Ascii Bool Lia DecimalString Sorted Permutation.
From Stdlib.Strings Require Import Byte.
Import ListNotations.
Open Scope string_scope.
Open Scope Z_scope.

Set Implicit Arguments.
Set Warnings "-register-all".

(** ** Exceptions and results *)

(** The exception classes that the handlers of the source tell apart.
    [AssertionError] also stands for its subclasses, [sqlite3_Error] for
    every class derived from [sqlite3.Error], [RequestException] for every
    class derived from [requests.exceptions.RequestException]. *)
Inductive exn : Set :=
| BadSignatureError
| KeyError
| ValueError
| TypeError
| OverflowError
| AssertionError
| RequestException
| sqlite3_Error.

Definition exn_eqb (a b : exn) : bool :=
  match a, b with
  | BadSignatureError, BadSignatureError | KeyError, KeyError
  | ValueError, ValueError | TypeError, TypeError
  | OverflowError, OverflowError | AssertionError, AssertionError
  | RequestException, RequestException | sqlite3_Error, sqlite3_Error => true
  | _, _ => false
  end.

Inductive result (A : Type) : Type :=
| Ok (a : A)
| Raise (e : exn).
Arguments Ok {A} a.
Arguments Raise {A} e.

Definition rbind {A B} (c : result A) (k : A -> result B) : result B :=
  match c with
  | Ok a => k a
  | Raise e => Raise e
  end.

Notation "'let?' x ':=' c 'in' k" := (rbind c (fun x => k))
  (at level 10, x pattern, c at level 100, k at level 200).

(** ** JSON values, as [json.loads] builds them *)

Inductive json : Type :=
| JNull
| JBool (b : bool)
| JInt (z : Z)
| JStr (s : string)
| JList (l : list json)
| JObj (o : list (string * json)).

(** A [dict] is an association list; [json.loads] never yields a key twice. *)
Definition dict := list (string * json).

Definition keys (d : dict) : list string := map fst d.

Fixpoint lookup (k : string) (d : dict) : option json :=
  match d with
  | [] => None
  | (k', v) :: d' => if String.eqb k k' then Some v else lookup k d'
  end.

(** [needle in hay] on two [str]. *)
Fixpoint str_contains (needle hay : string) : bool :=
  String.prefix needle hay ||
  match hay with
  | EmptyString => false
  | String _ hay' => str_contains needle hay'
  end.

Definition is_str (k : string) (v : json) : bool :=
  match v with
  | JStr s => String.eqb s k
  | _ => false
  end.

(** [k in x] for a [str] [k]. *)
Definition py_in (k : string) (x : json) : result bool :=
  match x with
  | JObj o => Ok (existsb (String.eqb k) (keys o))
  | JList l => Ok (existsb (is_str k) l)
  | JStr s => Ok (str_contains k s)
  | JNull | JBool _ | JInt _ => Raise TypeError
  end.

(** [all(k in x for k in ks)]: stops at the first [False]. *)
Fixpoint py_all_in (ks : list string) (x : json) : result bool :=
  match ks with
  | [] => Ok true
  | k :: ks' =>
      let? b := py_in k x in
      if b then py_all_in ks' x else Ok false
  end.

(** [x[k]] for a [str] [k]. *)
Definition getitem (x : json) (k : string) : result json :=
  match x with
  | JObj o => match lookup k o with
              | Some v => Ok v
              | None => Raise KeyError
              end
  | _ => Raise TypeError
  end.

(** [x[:n]], kept for the exception it may raise: only the f-strings of the
    progress messages slice.  A [dict] raises [TypeError] (a [KeyError] from
    Python 3.12 on; [process_chain] handles neither). *)
Definition py_slice (x : json) : result unit :=
  match x with
  | JStr _ | JList _ => Ok tt
  | _ => Raise TypeError
  end.

(** [x != s] where [s] is a [str]. *)
Definition py_ne_str (x : json) (s : string) : bool :=
  negb (is_str s x).

(** ** [bytes.fromhex] *)

Definition is_space (c : ascii) : bool :=
  let n := N_of_ascii c in
  ((9 <=? n) && (n <=? 13) || (n =? 32))%N.

Definition hex_digit (c : ascii) : option N :=
  let n := N_of_ascii c in
  if ((48 <=? n) && (n <=? 57))%N then Some (n - 48)%N
  else if ((97 <=? n) && (n <=? 102))%N then Some (n - 87)%N
  else if ((65 <=? n) && (n <=? 70))%N then Some (n - 55)%N
  else None.

Definition byte_of_N (n : N) : byte := byte_of_ascii (ascii_of_N n).

(** White space is skipped before each pair of digits, never inside one. *)
Fixpoint fromhex (s : string) : option (list byte) :=
  match s with
  | EmptyString => Some []
  | String c s' =>
      if is_space c then fromhex s'
      else
        match hex_digit c, s' with
        | Some hi, String d s'' =>
            match hex_digit d with
            | Some lo => option_map (cons (byte_of_N (16 * hi + lo))) (fromhex s'')
            | None => None
            end
        | _, _ => None
        end
  end.

Definition bytes_fromhex (x : json) : result (list byte) :=
  match x with
  | JStr s => match fromhex s with
              | Some b => Ok b
              | None => Raise ValueError
              end
  | _ => Raise TypeError
  end.

(** ** [json.dumps(_, sort_keys=True)] *)

Section Sorted.
Variables (A K : Type) (leb : K -> K -> bool) (key : A -> K).

Fixpoint insert_by (x : A) (l : list A) : list A :=
    match l with
    | [] => [x]
    | y :: l' => if leb (key x) (key y) then x :: l else y :: insert_by x l'
    end.

  (** [sorted(l, key=key)]: a stable sort. *)
Fixpoint sorted (l : list A) : list A :=
    match l with
    | [] => []
    | x :: l' => insert_by x (sorted l')
    end.
End Sorted.

Definition dquote : ascii := ascii_of_N 34.

Definition hex_char (n : N) : ascii :=
  ascii_of_N (if (n <? 10)%N then n + 48 else n + 87)%N.

(** [encode_basestring_ascii], one character. *)
Definition escape_char (c : ascii) : string :=
  let n := N_of_ascii c in
  if (n =? 34)%N then String "\" (String dquote EmptyString)
  else if (n =? 92)%N then "\\"
  else if (n =? 10)%N then "\n"
  else if (n =? 13)%N then "\r"
  else if (n =? 9)%N then "\t"
  else if (n =? 8)%N then "\b"
  else if (n =? 12)%N then "\f"
  else if ((32 <=? n) && (n <=? 126))%N then String c EmptyString
  else "\u00" ++ String (hex_char (n / 16)) (String (hex_char (n mod 16)) EmptyString).

Fixpoint escape (s : string) : string :=
  match s with
  | EmptyString => EmptyString
  | String c s' => escape_char c ++ escape s'
  end.

Definition quoted (s : string) : string :=
  String dquote (escape s ++ String dquote EmptyString).

Definition dumps_item (kv : string * string) : string :=
  quoted (fst kv) ++ ": " ++ snd kv.

(** The default separators; a [dict] is written in the order of its keys,
    at every depth. *)
Fixpoint dumps (v : json) : string :=
  match v with
  | JNull => "null"
  | JBool true => "true"
  | JBool false => "false"
  | JInt z => NilZero.string_of_int (Z.to_int z)
  | JStr s => quoted s
  | JList l => "[" ++ String.concat ", " (map dumps l) ++ "]"
  | JObj o =>
      let rendered := map (fun kv => match kv with (k, x) => (k, dumps x) end) o in
      "{" ++ String.concat ", " (map dumps_item (sorted String.leb fst rendered)) ++ "}"
  end.

(** [s.encode('utf-8')] on the output of [dumps], which is ASCII. *)
Definition encode (s : string) : list byte :=
  map byte_of_ascii (list_ascii_of_string s).

(** ** [verify_signature] *)

Definition GENESIS_COMMIT : string := "0000000000000000000000000000000000000000".

(** The two entry points of the [ecdsa] package that the source calls, on
    the curve NIST256p.  [verify] returns [True] or raises. *)
Record Ecdsa : Type := {
  VerifyingKey : Type;
  from_string : list byte -> result VerifyingKey;
  verify : VerifyingKey -> list byte -> list byte -> result bool
}.

Definition signed_fields : list string :=
  ["repo_id"; "ref"; "old_commit"; "new_commit"].

(** [{k: v for k, v in att.items() if k in [...]}] *)
Definition attestation_data (att : dict) : dict :=
  filter (fun kv => existsb (String.eqb (fst kv)) signed_fields) att.

(** [json.dumps(attestation_data, sort_keys=True).encode('utf-8')] *)
Definition canonical_message (att : dict) : list byte :=
  encode (dumps (JObj (attestation_data att))).

(** [att.items()] *)
Definition py_items (att : json) : result dict :=
  match att with
  | JObj o => Ok o
  | _ => Raise TypeError
  end.

Section Verify.
Variable lib : Ecdsa.

  (** The body of the [try]. *)
Definition verify_signature_try (att : json) : result bool :=
    let? key_hex := getitem att "signer_identity" in
    let? key_bytes := bytes_fromhex key_hex in
    let? vk := from_string lib key_bytes in
    let? items := py_items att in
    let message := canonical_message items in
    let? sig_hex := getitem att "signature" in
    let? signature := bytes_fromhex sig_hex in
    let? _ := verify lib vk signature message in
    Ok true.

  (** [except (ecdsa.keys.BadSignatureError, KeyError, ValueError)] *)
Definition verify_signature (att : json) : result bool :=
    match verify_signature_try att with
    | Ok b => Ok b
    | Raise BadSignatureError | Raise KeyError | Raise ValueError => Ok false
    | Raise e => Raise e
    end.
End Verify.

(** ** The SQLite file of [db.py] *)

(** A row of [refs].  The key columns are declared [TEXT] without
    [NOT NULL], so they hold a text or [NULL] ([None] here). *)
Record row : Type := {
  repo_id : option string;
  ref_name : option string;
  commit_hash : string;
  updated_at : Z
}.

(** [meta] holds at most the row of key ['last_processed_block'];
    [last_processed_block_row] is its [value]. *)
Record tables : Type := {
  last_processed_block_row : option Z;
  refs : list row
}.

Definition empty_tables : tables :=
  {| last_processed_block_row := None; refs := [] |}.

(** [setup_database]: both [CREATE TABLE IF NOT EXISTS], then
    [INSERT OR IGNORE INTO meta ... ('last_processed_block', 0)]. *)
Definition setup_database (t : tables) : tables :=
  match last_processed_block_row t with
  | Some _ => t
  | None => {| last_processed_block_row := Some 0; refs := refs t |}
  end.

Definition int64 (z : Z) : bool :=
  (- 2 ^ 63 <=? z) && (z <? 2 ^ 63).

(** A Python value bound to a parameter that meets a [TEXT] column: SQLite
    turns an integer into its decimal text there; a list or a dict cannot be
    bound, and an integer outside 64 bits does not convert. *)
Definition bind_text (v : json) : result (option string) :=
  match v with
  | JNull => Ok None
  | JBool true => Ok (Some "1")
  | JBool false => Ok (Some "0")
  | JInt z => if int64 z then Ok (Some (NilZero.string_of_int (Z.to_int z)))
              else Raise OverflowError
  | JStr s => Ok (Some s)
  | JList _ | JObj _ => Raise sqlite3_Error
  end.

Definition bind_integer (z : Z) : result Z :=
  if int64 z then Ok z else Raise OverflowError.

(** SQL [=]: never true when an operand is [NULL]. *)
Definition sql_eq (a b : option string) : bool :=
  match a, b with
  | Some x, Some y => String.eqb x y
  | _, _ => false
  end.

Definition key_matches (rid ref : option string) (r : row) : bool :=
  sql_eq (repo_id r) rid && sql_eq (ref_name r) ref.

(** [SELECT commit_hash FROM refs WHERE repo_id = ? AND ref_name = ?]
    followed by [fetchone()]. *)
Definition select_commit_hash (t : tables) (rid ref : option string) : option string :=
  option_map commit_hash (find (key_matches rid ref) (refs t)).

(** [INSERT OR REPLACE INTO refs ...]: the rows that clash on the primary
    key go, the new row comes in. *)
Definition insert_or_replace (t : tables) (r : row) : tables :=
  {| last_processed_block_row := last_processed_block_row t;
     refs := filter (fun r' => negb (key_matches (repo_id r) (ref_name r) r')) (refs t)
               ++ [r] |}.

(** [UPDATE meta SET value = ? WHERE key = 'last_processed_block'] *)
Definition update_meta (t : tables) (v : Z) : tables :=
  match last_processed_block_row t with
  | Some _ => {| last_processed_block_row := Some v; refs := refs t |}
  | None => t
  end.

(** What [process_chain] reads as [last_processed_block]. *)
Definition checkpoint (t : tables) : Z :=
  match last_processed_block_row t with
  | Some v => v
  | None => 0
  end.

(** The stored head of a ref, [GENESIS_COMMIT] when there is no row. *)
Definition get_head (t : tables) (rid ref : string) : string :=
  match select_commit_hash t (Some rid) (Some ref) with
  | Some h => h
  | None => GENESIS_COMMIT
  end.

(** ** Blocks and the journal *)

Record Block : Type := {
  index : Z;
  timestamp : Z;
  transactions : list json
}.

(** What became of a transaction; the source prints one message for each. *)
Inductive verdict : Type :=
| NotAttestation
| InvalidSignature
| Inconsistent (current : string)
| Updated (r : row).

(** A journal entry: ghost state that records the verdicts in order. *)
Record entry : Type := {
  e_block : Z;
  e_tx : json;
  e_verdict : verdict
}.

(** ** The connection *)

(** [durable] is the file, [view] what the open connection reads and writes,
    [stmts] counts the statements run on it.  [staged] and [applied] are the
    journal of the open transaction and of the committed ones. *)
Record conn : Type := {
  durable : tables;
  view : tables;
  stmts : nat;
  staged : list entry;
  applied : list entry
}.

(** [get_db_connection()] *)
Definition get_db_connection (t : tables) : conn :=
  {| durable := t; view := t; stmts := 0; staged := []; applied := [] |}.

Definition M (A : Type) : Type := conn -> result A * conn.

Definition ret {A} (a : A) : M A := fun c => (Ok a, c).

Definition bind {A B} (m : M A) (k : A -> M B) : M B :=
  fun c => match m c with
           | (Ok a, c') => k a c'
           | (Raise e, c') => (Raise e, c')
           end.

Definition lift {A} (r : result A) : M A := fun c => (r, c).

Notation "x <- m ;; k" := (bind m (fun x => k))
  (at level 61, m at next level, right associativity).
Notation "m ;; k" := (bind m (fun _ => k))
  (at level 61, right associativity).

Definition set_view (t : tables) : M unit := fun c =>
  (Ok tt, {| durable := durable c; view := t; stmts := stmts c;
             staged := staged c; applied := applied c |}).

Definition get_view : M tables := fun c => (Ok (view c), c).

(** Ghost: note a verdict in the journal of the open transaction. *)
Definition log (e : entry) : M unit := fun c =>
  (Ok tt, {| durable := durable c; view := view c; stmts := stmts c;
             staged := staged c ++ [e]; applied := applied c |}).

(** The open transaction becomes part of the file. *)
Definition make_durable : M unit := fun c =>
  (Ok tt, {| durable := view c; view := view c; stmts := stmts c;
             staged := []; applied := applied c ++ staged c |}).

Definition required_fields : list string :=
  ["repo_id"; "ref"; "old_commit"; "new_commit"; "signer_identity"; "signature"].

(** What [requests.get(...)], [raise_for_status()] and [.json()['chain']]
    give in a cycle: a [RequestException] or the chain. *)
Inductive fetch_result : Type :=
| FetchError
| Fetched (chain : list Block).

(** How a call of [process_chain] ends: past the loop or the early [return],
    in one of its two [except] clauses, or with an exception it does not
    handle. *)
Inductive exit : Type :=
| Completed
| Absorbed (e : exn)
| Propagated (e : exn).

Record outcome : Type := {
  store : tables;
  journal : list entry;
  status : exit
}.

Section Indexer.
Variable lib : Ecdsa.

Section Connection.
    (** The statement of this connection, counted from 0, at which SQLite
        fails, if any. *)
Variable fault : option nat.

    (** Every statement sent to SQLite passes here. *)
Definition statement : M unit := fun c =>
      let c' := {| durable := durable c; view := view c; stmts := S (stmts c);
                   staged := staged c; applied := applied c |} in
      match fault with
      | Some n => if Nat.eqb n (stmts c) then (Raise sqlite3_Error, c') else (Ok tt, c')
      | None => (Ok tt, c')
      end.

    (** [SELECT value FROM meta WHERE key = 'last_processed_block'] *)
Definition select_meta : M (option Z) :=
      statement ;;
      t <- get_view ;;
      ret (last_processed_block_row t).

    (** The [SELECT] on [refs] with its two parameters. *)
Definition select_refs (rid ref : json) : M (option string) :=
      r <- lift (bind_text rid) ;;
      f <- lift (bind_text ref) ;;
      statement ;;
      t <- get_view ;;
      ret (select_commit_hash t r f).

    (** The [INSERT OR REPLACE] with its four parameters; [commit_hash] is
        [NOT NULL]. *)
Definition insert_refs (rid ref new : json) (ts : Z) : M row :=
      r <- lift (bind_text rid) ;;
      f <- lift (bind_text ref) ;;
      n <- lift (bind_text new) ;;
      u <- lift (bind_integer ts) ;;
      statement ;;
      match n with
      | None => lift (Raise sqlite3_Error)
      | Some h =>
          let new_row := {| repo_id := r; ref_name := f; commit_hash := h; updated_at := u |} in
          t <- get_view ;;
          set_view (insert_or_replace t new_row) ;;
          ret new_row
      end.

    (** The [UPDATE] on [meta] with its parameter. *)
Definition execute_update_meta (idx : Z) : M unit :=
      v <- lift (bind_integer idx) ;;
      statement ;;
      t <- get_view ;;
      set_view (update_meta t v).

    (** [conn.commit()] *)
Definition commit : M unit :=
      statement ;;
      make_durable.

    (** The body of [for tx in block['transactions']]; [continue] is the end
        of the body. *)
Definition process_tx (block : Block) (tx : json) : M unit :=
      let note v := log {| e_block := index block; e_tx := tx; e_verdict := v |} in
      is_attestation <- lift (py_all_in required_fields tx) ;;
      if negb is_attestation then note NotAttestation
      else
        rid <- lift (getitem tx "repo_id") ;;
        lift (py_slice rid) ;;
        ref <- lift (getitem tx "ref") ;;
        valid <- lift (verify_signature lib tx) ;;
        if negb valid then note InvalidSignature
        else
          result <- select_refs rid ref ;;
          let current_commit_in_db :=
            match result with Some h => h | None => GENESIS_COMMIT end in
          old <- lift (getitem tx "old_commit") ;;
          if py_ne_str old current_commit_in_db then
            lift (py_slice old) ;;
            note (Inconsistent current_commit_in_db)
          else
            new <- lift (getitem tx "new_commit") ;;
            lift (py_slice new) ;;
            r <- insert_refs rid ref new (timestamp block) ;;
            note (Updated r).

Fixpoint process_txs (block : Block) (txs : list json) : M unit :=
      match txs with
      | [] => ret tt
      | tx :: txs' => process_tx block tx ;; process_txs block txs'
      end.

    (** The body of [for block in sorted(...)]. *)
Definition process_block (block : Block) : M unit :=
      process_txs block (transactions block) ;;
      execute_update_meta (index block) ;;
      commit.

Fixpoint process_blocks (blocks : list Block) : M unit :=
      match blocks with
      | [] => ret tt
      | b :: blocks' => process_block b ;; process_blocks blocks'
      end.

Definition new_blocks (last : Z) (chain : list Block) : list Block :=
      filter (fun b => last <? index b) chain.

    (** The body of the [try] of [process_chain]. *)
Definition process_chain_try (node : fetch_result) : M unit :=
      row <- select_meta ;;
      let last_processed_block := match row with Some v => v | None => 0 end in
      chain <- lift (match node with
                     | FetchError => Raise RequestException
                     | Fetched chain => Ok chain
                     end) ;;
      match new_blocks last_processed_block chain with
      | [] => ret tt
      | nb => process_blocks (sorted Z.leb index nb)
      end.

    (** The two [except] clauses. *)
Definition handlers (r : result unit) : exit :=
      match r with
      | Ok _ => Completed
      | Raise RequestException => Absorbed RequestException
      | Raise sqlite3_Error => Absorbed sqlite3_Error
      | Raise e => Propagated e
      end.

    (** [process_chain]: connect, run the [try], and in [finally] close the
        connection, which leaves the file as of the last commit. *)
Definition process_chain (node : fetch_result) (t : tables) : outcome :=
      let (r, c) := process_chain_try node (get_db_connection t) in
      {| store := durable c; journal := applied c; status := handlers r |}.
End Connection.

  (** What surrounds one cycle: the node's answer and the database fault. *)
Record cycle : Type := {
    node : fetch_result;
    db_fault : option nat
  }.

  (** Successive calls of [process_chain] on the same file. *)
Fixpoint run_cycles (cs : list cycle) (t : tables) : tables * list entry :=
    match cs with
    | [] => (t, [])
    | c :: cs' =>
        let o := process_chain (db_fault c) (node c) t in
        let (t', j) := run_cycles cs' (store o) in
        (t', (journal o ++ j)%list)
    end.
End Indexer.

(** ** A stand-in for the [ecdsa] package, to run the model on data *)

(** Keys are 64 bytes, as the raw encoding of a NIST256p point; a signature
    is good when it is the key with the sum of the message added to each
    byte.  It has the interface of the package and nothing of its
    cryptography; the theorems below hold for every [Ecdsa]. *)
Definition byte_sum (l : list byte) : N :=
  fold_right (fun b acc => ((Byte.to_N b + acc) mod 256)%N) 0%N l.

Definition toy_sign (key message : list byte) : list byte :=
  map (fun b => byte_of_N ((Byte.to_N b + byte_sum message) mod 256)%N) key.

Definition bytes_eqb (a b : list byte) : bool :=
  if list_eq_dec Byte.byte_eq_dec a b then true else false.

Definition toy_ecdsa : Ecdsa := {|
  VerifyingKey := list byte;
  from_string := fun s =>
    if Nat.eqb (List.length s) 64 then Ok s else Raise AssertionError;
  verify := fun vk signature message =>
    if bytes_eqb signature (toy_sign vk message) then Ok true
    else Raise BadSignatureError
|}.

Definition hex_of_byte (b : byte) : string :=
  let n := Byte.to_N b in
  String (hex_char (n / 16)) (String (hex_char (n mod 16)) EmptyString).

Definition hexlify (l : list byte) : string :=
  String.concat EmptyString (map hex_of_byte l).

(** An attestation as the command-line tool would submit it, signed with
    [toy_sign]. *)
Definition toy_dict (key : list byte) (rid ref old new : string) : dict :=
  let body := [("repo_id", JStr rid); ("ref", JStr ref);
               ("old_commit", JStr old); ("new_commit", JStr new)] in
  (body ++ [("signer_identity", JStr (hexlify key));
            ("signature", JStr (hexlify (toy_sign key (canonical_message body))))])%list.

Definition toy_key : list byte := repeat (byte_of_N 7) 64.
Definition a1a1 : string := "a1a1a1a1a1a1a1a1a1a1a1a1a1a1a1a1a1a1a1a1".
Definition b2b2 : string := "b2b2b2b2b2b2b2b2b2b2b2b2b2b2b2b2b2b2b2b2".
Definition c3c3 : string := "c3c3c3c3c3c3c3c3c3c3c3c3c3c3c3c3c3c3c3c3".

(** Three attestations on [("r1", "main")]: from genesis to [a1a1], from
    [a1a1] to [b2b2], and one that names [b2b2] as the head it replaces. *)
Definition dict_a : dict := toy_dict toy_key "r1" "main" GENESIS_COMMIT a1a1.
Definition dict_b : dict := toy_dict toy_key "r1" "main" a1a1 b2b2.
Definition dict_c : dict := toy_dict toy_key "r1" "main" b2b2 c3c3.

Definition block_1 : Block :=
  {| index := 1; timestamp := 1700000000; transactions := [JObj dict_a] |}.
Definition block_2 : Block :=
  {| index := 2; timestamp := 1700000100; transactions := [JObj dict_b] |}.
Definition block_stale : Block :=
  {| index := 2; timestamp := 1700000100;
     transactions := [JObj dict_c; JObj [("memo", JStr "hello")]] |}.

Definition fresh : tables := setup_database empty_tables.

(** ** Chain of custody, as a property of a journal *)

(** The head that the [SELECT] of [process_chain] finds for the key of [r]. *)
Definition current (t : tables) (r : row) : string :=
  match select_commit_hash t (repo_id r) (ref_name r) with
  | Some h => h
  | None => GENESIS_COMMIT
  end.

Definition is_update_on (rid ref : string) (e : entry) : bool :=
  match e_verdict e with
  | Updated r => key_matches (Some rid) (Some ref) r
  | _ => false
  end.

(** The accepted transactions of a journal on one key, in order. *)
Definition accepted_on (rid ref : string) (j : list entry) : list entry :=
  filter (is_update_on rid ref) j.

(** [custody h es h']: the accepted entries [es] lead from head [h] to head
    [h'], each one naming as its [old_commit] the head it finds and leaving
    its [new_commit] as the next head. *)
Inductive custody : string -> list entry -> string -> Prop :=
| custody_nil : forall h, custody h [] h
| custody_cons : forall h e r es h',
    e_verdict e = Updated r ->
    getitem (e_tx e) "old_commit" = Ok (JStr h) ->
    getitem (e_tx e) "new_commit" = Ok (JStr (commit_hash r)) ->
    custody (commit_hash r) es h' ->
    custody h (e :: es) h'.

(** What a verdict on [tx], reached on the tables [t], says of the tables
    [t'] it leaves. *)
Definition justified (t : tables) (b : Block) (tx : json) (v : verdict) (t' : tables) : Prop :=
  match v with
  | Updated r =>
      t' = insert_or_replace t r /\
      getitem tx "old_commit" = Ok (JStr (current t r)) /\
      getitem tx "new_commit" = Ok (JStr (commit_hash r)) /\
      updated_at r = timestamp b /\
      exists rid ref,
        getitem tx "repo_id" = Ok rid /\ getitem tx "ref" = Ok ref /\
        bind_text rid = Ok (repo_id r) /\ bind_text ref = Ok (ref_name r)
  | _ => t' = t
  end.

(** * Vocabulary of the properties *)

Unset Implicit Arguments.

(** [wp m c Q]: running [m] on [c] ends in a result and a connection that
    satisfy [Q]. *)
Definition wp {A} (m : M A) (c : conn) (Q : result A -> conn -> Prop) : Prop :=
  Q (fst (m c)) (snd (m c)).

Definition bump (c : conn) : conn :=
  {| durable := durable c; view := view c; stmts := S (stmts c);
     staged := staged c; applied := applied c |}.

Definition mk_entry (b : Block) (tx : json) (v : verdict) : entry :=
  {| e_block := index b; e_tx := tx; e_verdict := v |}.

(** [replayed b t txs evs t']: the verdicts [evs], one for each of [txs] in
    order, lead from the tables [t] to [t']. *)
Inductive replayed (b : Block) : tables -> list json -> list entry -> tables -> Prop :=
| replayed_nil : forall t, replayed b t [] [] t
| replayed_cons : forall t tx v t' txs evs t'',
    justified t b tx v t' ->
    replayed b t' txs evs t'' ->
    replayed b t (tx :: txs) (mk_entry b tx v :: evs) t''.

(** [committed t bs j t']: the blocks [bs] were evaluated in full and
    committed one after the other, with journal [j], leading from [t] to
    [t']. *)
Inductive committed : tables -> list Block -> list entry -> tables -> Prop :=
| committed_nil : forall t, committed t [] [] t
| committed_cons : forall t b evs t' bs j t'',
    replayed b t (transactions b) evs t' ->
    int64 (index b) = true ->
    committed (update_meta t' (index b)) bs j t'' ->
    committed t (b :: bs) (evs ++ j) t''.

(** The blocks that a cycle has to process, in the order it takes them. *)
Definition pending (node : fetch_result) (t : tables) : list Block :=
  match node with
  | Fetched chain => sorted Z.leb index (new_blocks (checkpoint t) chain)
  | FetchError => []
  end.

Definition agrees {A} (m m' : M A) : Prop :=
  forall c a c', m c = (Ok a, c') -> m' c = (Ok a, c').

(** The signed fields that [att] carries, in the order of their names. *)
Definition canonical_fields (att : dict) : dict :=
  flat_map (fun k => match lookup k att with
                     | Some v => [(k, v)]
                     | None => []
                     end)
           ["new_commit"; "old_commit"; "ref"; "repo_id"].

Definition render (kv : string * json) : string * string :=
  match kv with (k, x) => (k, dumps x) end.

(** An attestation whose [signer_identity] is a JSON number. *)
Definition att_numeric_signer : json :=
  JObj [("repo_id", JStr "r1"); ("ref", JStr "main");
        ("old_commit", JStr GENESIS_COMMIT); ("new_commit", JStr a1a1);
        ("signer_identity", JInt 123); ("signature", JStr "00")].

Definition block_numeric_signer : Block :=
  {| index := 1; timestamp := 1700000000; transactions := [att_numeric_signer] |}.

(** A transaction with the six fields of an attestation, the four signed
    ones being [str]. *)
Definition well_formed (o : dict) (rid ref old new : string) : Prop :=
  lookup "repo_id" o = Some (JStr rid) /\
  lookup "ref" o = Some (JStr ref) /\
  lookup "old_commit" o = Some (JStr old) /\
  lookup "new_commit" o = Some (JStr new) /\
  lookup "signer_identity" o <> None /\
  lookup "signature" o <> None.

Definition row_of (b : Block) (rid ref new : string) : row :=
  {| repo_id := Some rid; ref_name := Some ref; commit_hash := new;
     updated_at := timestamp b |}.

(** The connection after an accepted transaction: two statements, the new
    row, the verdict. *)
Definition after_update (b : Block) (tx : json) (r : row) (c : conn) : conn :=
  {| durable := durable c; view := insert_or_replace (view c) r;
     stmts := S (S (stmts c));
     staged := staged c ++ [mk_entry b tx (Updated r)]; applied := applied c |}.

(** The connection after a skipped transaction that took [n] statements. *)
Definition after_skip (b : Block) (tx : json) (v : verdict) (n : nat) (c : conn) : conn :=
  {| durable := durable c; view := view c; stmts := (n + stmts c)%nat;
     staged := staged c ++ [mk_entry b tx v]; applied := applied c |}.

(** The three ways in which the loop body skips a transaction, with the
    verdict and the number of statements that it takes. *)
Inductive skipped (lib : Ecdsa) (fault : option nat) (c : conn) :
  json -> verdict -> nat -> Prop :=
| skipped_missing_field : forall tx,
    py_all_in required_fields tx = Ok false ->
    skipped lib fault c tx NotAttestation 0
| skipped_invalid_signature : forall o rid ref,
    py_all_in required_fields (JObj o) = Ok true ->
    lookup "repo_id" o = Some rid -> py_slice rid = Ok tt ->
    lookup "ref" o = Some ref ->
    verify_signature lib (JObj o) = Ok false ->
    skipped lib fault c (JObj o) InvalidSignature 0
| skipped_inconsistent : forall o rid ref old new,
    well_formed o rid ref old new ->
    verify_signature lib (JObj o) = Ok true ->
    fault <> Some (stmts c) ->
    old <> get_head (view c) rid ref ->
    skipped lib fault c (JObj o) (Inconsistent (get_head (view c) rid ref)) 1.


Definition head_row (t : tables) (rid ref : string) : option row :=
  find (key_matches (Some rid) (Some ref)) (refs t).

(** What the checks of the loop body have found for the verdict of [e]. *)
Definition checked (lib : Ecdsa) (e : entry) : Prop :=
  match e_verdict e with
  | NotAttestation => py_all_in required_fields (e_tx e) = Ok false
  | InvalidSignature =>
      py_all_in required_fields (e_tx e) = Ok true /\
      verify_signature lib (e_tx e) = Ok false
  | Inconsistent h =>
      py_all_in required_fields (e_tx e) = Ok true /\
      verify_signature lib (e_tx e) = Ok true /\
      exists old, getitem (e_tx e) "old_commit" = Ok old /\ old <> JStr h
  | Updated r =>
      py_all_in required_fields (e_tx e) = Ok true /\
      verify_signature lib (e_tx e) = Ok true /\
      getitem (e_tx e) "new_commit" = Ok (JStr (commit_hash r))
  end.

(** The tables after the accepted rows of a journal are written in order. *)
Definition apply_updates (j : list entry) (t : tables) : tables :=
  fold_left (fun t e => match e_verdict e with
                        | Updated r => insert_or_replace t r
                        | _ => t
                        end) j t.

(** Where an entry of the journal comes from: a transaction of the block
    [b], whose timestamp is that of the row when there is one. *)
Definition from_block (b : Block) (e : entry) : Prop :=
  e_block e = index b /\ In (e_tx e) (transactions b) /\
  forall r, e_verdict e = Updated r -> updated_at r = timestamp b.

(** The row that the last accepted entry of [j] on the key has written. *)
Definition last_row (rid ref : string) (j : list entry) : option row :=
  fold_left (fun acc e => match e_verdict e with
                          | Updated r =>
                              if key_matches (Some rid) (Some ref) r then Some r else acc
                          | _ => acc
                          end) j None.

(** The exception classes that the [except] clause of [verify_signature]
    lists. *)
Definition caught (e : exn) : Prop :=
  e = BadSignatureError \/ e = KeyError \/ e = ValueError.

(** The four signed fields of [att] are the [str] [rid], [ref], [old] and
    [new]. *)
Definition signed_strings (att : dict) (rid ref old new : string) : Prop :=
  lookup "repo_id" att = Some (JStr rid) /\
  lookup "ref" att = Some (JStr ref) /\
  lookup "old_commit" att = Some (JStr old) /\
  lookup "new_commit" att = Some (JStr new).

(** Reads back one character written by [escape_char]. *)
Definition unescape_char (s : string) : option (ascii * string) :=
  match s with
  | EmptyString => None
  | String c rest =>
      if (N_of_ascii c =? 92)%N then
        match rest with
        | EmptyString => None
        | String d rest' =>
            let n := N_of_ascii d in
            if (n =? 34)%N then Some (dquote, rest')
            else if (n =? 92)%N then Some (d, rest')
            else if (n =? 110)%N then Some (ascii_of_N 10, rest')
            else if (n =? 114)%N then Some (ascii_of_N 13, rest')
            else if (n =? 116)%N then Some (ascii_of_N 9, rest')
            else if (n =? 98)%N then Some (ascii_of_N 8, rest')
            else if (n =? 102)%N then Some (ascii_of_N 12, rest')
            else
              match rest' with
              | String _ (String _ (String h (String l rest''))) =>
                  match hex_digit h, hex_digit l with
                  | Some a, Some b => Some (ascii_of_N (16 * a + b), rest'')
                  | _, _ => None
                  end
              | _ => None
              end
        end
      else Some (c, rest)
  end.

(** Two connections that differ only in the count of statements and in the
    journal committed before: they hold the same file, the same view and
    the same open transaction, and have committed the same entries [j]
    since the journals [a1] and [a2]. *)
Definition alike (a1 a2 : list entry) (c1 c2 : conn) : Prop :=
  durable c1 = durable c2 /\ view c1 = view c2 /\ staged c1 = staged c2 /\
  exists j, applied c1 = (a1 ++ j)%list /\ applied c2 = (a2 ++ j)%list.

(** [m] does not look at what [alike] leaves out. *)
Definition steady {A} (a1 a2 : list entry) (m : M A) : Prop :=
  forall c1 c2, alike a1 a2 c1 c2 ->
    fst (m c1) = fst (m c2) /\ alike a1 a2 (snd (m c1)) (snd (m c2)).

(** A block with the attestation of [att_numeric_signer], after
    [block_1]. *)
Definition block_poison : Block :=
  {| index := 2; timestamp := 1700000100; transactions := [att_numeric_signer] |}.

(** A block of transactions of another kind. *)
Definition block_memos : Block :=
  {| index := 1; timestamp := 1700000000;
     transactions := [JObj [("memo", JStr "hello")]; JObj []] |}.

(** An attestation whose [ref] is JSON [null], signed like the others. *)
Definition toy_dict_null_ref (key : list byte) (rid old new : string) : dict :=
  let body := [("repo_id", JStr rid); ("ref", JNull);
               ("old_commit", JStr old); ("new_commit", JStr new)] in
  (body ++ [("signer_identity", JStr (hexlify key));
            ("signature", JStr (hexlify (toy_sign key (canonical_message body))))])%list.

(** Two attestations on the key of [repo_id] ["r1"] and [ref] [null],
    both from genesis: one to [a1a1], one to [b2b2]. *)
Definition null_a : dict := toy_dict_null_ref toy_key "r1" GENESIS_COMMIT a1a1.
Definition null_b : dict := toy_dict_null_ref toy_key "r1" GENESIS_COMMIT b2b2.

(** A block that lists the first twice and then the second. *)
Definition block_null_ref : Block :=
  {| index := 1; timestamp := 1700000000;
     transactions := [JObj null_a; JObj null_a; JObj null_b] |}.

Definition null_row (new : string) : row :=
  {| repo_id := Some "r1"; ref_name := None; commit_hash := new;
     updated_at := timestamp block_null_ref |}.



(** * Properties *)

(** ** Reasoning on the connection monad *)

Lemma wp_run A (m : M A) c Q r c' : wp m c Q -> m c = (r, c') -> Q r c'.
Proof. unfold wp. intros H E. rewrite E in H. exact H. Qed.

Lemma wp_of_run A (m : M A) c (Q : result A -> conn -> Prop) :
  (forall r c', m c = (r, c') -> Q r c') -> wp m c Q.
Proof. unfold wp. intros H. apply H. destruct (m c); reflexivity. Qed.

Lemma wp_bind A B (m : M A) (k : A -> M B) c Q :
  wp m c (fun r c' => match r with
                      | Ok a => wp (k a) c' Q
                      | Raise e => Q (Raise e) c'
                      end) ->
  wp (bind m k) c Q.
Proof.
  unfold wp, bind. destruct (m c) as [[a|e] c']; cbn; auto.
Qed.

Lemma wp_lift A (r : result A) c (Q : result A -> conn -> Prop) :
  Q r c -> wp (lift r) c Q.
Proof. auto. Qed.

Lemma wp_ret A (a : A) c (Q : result A -> conn -> Prop) :
  Q (Ok a) c -> wp (ret a) c Q.
Proof. auto. Qed.

Lemma wp_get_view c (Q : result tables -> conn -> Prop) :
  Q (Ok (view c)) c -> wp get_view c Q.
Proof. auto. Qed.

Lemma wp_set_view t c (Q : result unit -> conn -> Prop) :
  Q (Ok tt) {| durable := durable c; view := t; stmts := stmts c;
               staged := staged c; applied := applied c |} ->
  wp (set_view t) c Q.
Proof. auto. Qed.

Lemma wp_log e c (Q : result unit -> conn -> Prop) :
  Q (Ok tt) {| durable := durable c; view := view c; stmts := stmts c;
               staged := staged c ++ [e]; applied := applied c |} ->
  wp (log e) c Q.
Proof. auto. Qed.

Lemma wp_make_durable c (Q : result unit -> conn -> Prop) :
  Q (Ok tt) {| durable := view c; view := view c; stmts := stmts c;
               staged := []; applied := applied c ++ staged c |} ->
  wp make_durable c Q.
Proof. auto. Qed.

Lemma wp_statement fault c (Q : result unit -> conn -> Prop) :
  (fault = Some (stmts c) -> Q (Raise sqlite3_Error) (bump c)) ->
  (fault <> Some (stmts c) -> Q (Ok tt) (bump c)) ->
  wp (statement fault) c Q.
Proof.
  unfold wp, statement. intros Hf Hn. destruct fault as [n|]; cbn.
  - destruct (Nat.eqb n (stmts c)) eqn:E; cbn.
    + apply Nat.eqb_eq in E. subst. auto.
    + apply Nat.eqb_neq in E. apply Hn. congruence.
  - apply Hn. discriminate.
Qed.

Lemma wp_mono A (m : M A) c (Q Q' : result A -> conn -> Prop) :
  wp m c Q -> (forall r c', Q r c' -> Q' r c') -> wp m c Q'.
Proof. unfold wp. auto. Qed.

(** One step of symbolic execution. *)
Ltac wp_step :=
  lazymatch goal with
  | |- wp (bind _ _) _ _ => apply wp_bind
  | |- wp (lift (Ok _)) _ _ => apply wp_lift
  | |- wp (lift (Raise _)) _ _ => apply wp_lift
  | |- wp (lift ?r) _ _ => apply wp_lift; destruct r eqn:?
  | |- wp (ret _) _ _ => apply wp_ret
  | |- wp get_view _ _ => apply wp_get_view
  | |- wp (statement _) _ _ => apply wp_statement; intros ?
  | |- wp (set_view _) _ _ => apply wp_set_view
  | |- wp (log _) _ _ => apply wp_log
  | |- wp make_durable _ _ => apply wp_make_durable
  | |- wp (if ?b then _ else _) _ _ => destruct b eqn:?
  | |- wp (match ?x with _ => _ end) _ _ => destruct x eqn:?
  end.

Ltac wp_steps := repeat (wp_step; cbv beta iota).

Lemma py_ne_str_false x s : py_ne_str x s = false -> x = JStr s.
Proof.
  unfold py_ne_str, is_str. destruct x; cbn; try discriminate.
  intros H. apply negb_false_iff, String.eqb_eq in H. congruence.
Qed.

Lemma py_ne_str_true x s : py_ne_str x s = true -> x <> JStr s.
Proof.
  unfold py_ne_str, is_str. intros H E. subst. cbn in H.
  rewrite String.eqb_refl in H. discriminate.
Qed.

Lemma bind_text_sliced x s : py_slice x = Ok tt -> bind_text x = Ok (Some s) -> x = JStr s.
Proof. destruct x; cbn; try discriminate. congruence. Qed.

Lemma bind_integer_ok z a : bind_integer z = Ok a -> a = z /\ int64 z = true.
Proof. unfold bind_integer. destruct (int64 z); [|discriminate]. intros [= <-]. auto. Qed.

Lemma process_tx_wp lib fault b tx c :
  wp (process_tx lib fault b tx) c (fun r c' =>
    durable c' = durable c /\ applied c' = applied c /\
    match r with
    | Raise _ => view c' = view c /\ staged c' = staged c
    | Ok _ => exists v,
        staged c' = (staged c ++ [mk_entry b tx v])%list /\
        justified (view c) b tx v (view c')
    end).
Proof.
  unfold process_tx, select_refs, insert_refs. cbv zeta.
  wp_steps; cbn; auto.
  all: try (repeat split; auto; eexists; split; [reflexivity|cbn; auto]).
  match goal with H : py_ne_str _ _ = false |- _ => apply py_ne_str_false in H; subst end.
  match goal with
  | S : py_slice ?x = Ok ?u, B : bind_text ?x = Ok (Some _) |- _ =>
      destruct u; apply (bind_text_sliced _ _ S) in B; subst x
  end.
  match goal with H : bind_integer _ = Ok _ |- _ => apply bind_integer_ok in H; destruct H as [-> _] end.
  repeat split; auto. eauto 10.
Qed.

Lemma process_tx_spec lib fault b tx c r c' :
  process_tx lib fault b tx c = (r, c') ->
  durable c' = durable c /\ applied c' = applied c /\
  match r with
  | Raise _ => view c' = view c /\ staged c' = staged c
  | Ok _ => exists v,
      staged c' = (staged c ++ [mk_entry b tx v])%list /\
      justified (view c) b tx v (view c')
  end.
Proof. exact (@wp_run _ _ _ _ _ _ (process_tx_wp lib fault b tx c)). Qed.

Lemma process_txs_wp lib fault b txs : forall c,
  wp (process_txs lib fault b txs) c (fun r c' =>
    durable c' = durable c /\ applied c' = applied c /\
    match r with
    | Raise _ => True
    | Ok _ => exists evs,
        staged c' = (staged c ++ evs)%list /\
        replayed b (view c) txs evs (view c')
    end).
Proof.
  induction txs as [|tx txs IH]; intros c; cbn [process_txs].
  - apply wp_ret. repeat split; auto. exists []. rewrite app_nil_r.
    split; [reflexivity | constructor].
  - apply wp_bind. eapply wp_mono; [apply process_tx_wp|].
    intros [[]|e] c1 (Hd & Ha & H); [|rewrite Hd, Ha; auto].
    destruct H as (v & Hs & Hj).
    eapply wp_mono; [apply IH|].
    intros [[]|e] c2 (Hd2 & Ha2 & H2); rewrite Hd2, Ha2, Hd, Ha; repeat split; auto.
    destruct H2 as (evs & Hs2 & Hr).
    exists (mk_entry b tx v :: evs). split.
    + rewrite Hs2, Hs, <- app_assoc. reflexivity.
    + econstructor; eauto.
Qed.

Lemma process_block_wp lib fault b c :
  wp (process_block lib fault b) c (fun r c' =>
    match r with
    | Raise _ => durable c' = durable c /\ applied c' = applied c
    | Ok _ => exists evs t',
        replayed b (view c) (transactions b) evs t' /\
        int64 (index b) = true /\
        durable c' = update_meta t' (index b) /\
        view c' = durable c' /\ staged c' = [] /\
        applied c' = (applied c ++ staged c ++ evs)%list
    end).
Proof.
  unfold process_block, execute_update_meta, commit.
  apply wp_bind. eapply wp_mono; [apply process_txs_wp|].
  intros [[]|e] c1 (Hd & Ha & H); [|auto].
  destruct H as (evs & Hs & Hr).
  wp_steps; cbn; auto.
  match goal with H : bind_integer _ = Ok _ |- _ =>
    apply bind_integer_ok in H; destruct H as [-> Hi] end.
  exists evs, (view c1). rewrite Ha, Hs. auto 10.
Qed.

Lemma process_blocks_wp lib fault bs : forall c,
  staged c = [] -> view c = durable c ->
  wp (process_blocks lib fault bs) c (fun r c' =>
    exists done rest j,
      bs = (done ++ rest)%list /\
      committed (durable c) done j (durable c') /\
      applied c' = (applied c ++ j)%list /\
      match r with
      | Ok _ => rest = [] /\ view c' = durable c' /\ staged c' = []
      | Raise _ => rest <> []
      end).
Proof.
  induction bs as [|b bs IH]; intros c Hs Hv; cbn [process_blocks].
  - apply wp_ret. exists [], [], [].
    repeat split; auto using app_nil_r. constructor.
  - apply wp_bind. eapply wp_mono; [apply process_block_wp|].
    intros [[]|e] c1 H.
    + destruct H as (evs & t' & Hr & Hi & Hd & Hv1 & Hs1 & Ha).
      eapply wp_mono; [apply IH; auto|].
      intros r c2 (done & rest & j & -> & Hc & Ha2 & Hrest).
      exists (b :: done), rest, (evs ++ j)%list. repeat split; auto.
      * rewrite Hv in Hr. econstructor; eauto. rewrite <- Hd. exact Hc.
      * rewrite Ha2, Ha, Hs. cbn. rewrite app_assoc. reflexivity.
    + destruct H as [Hd Ha]. exists [], (b :: bs), []. rewrite Hd, Ha, app_nil_r.
      repeat split; auto; [constructor | discriminate].
Qed.

Lemma process_chain_try_wp lib fault node t :
  wp (process_chain_try lib fault node) (get_db_connection t) (fun r c' =>
    exists done rest,
      pending node t = (done ++ rest)%list /\
      committed t done (applied c') (durable c') /\
      match r with
      | Ok _ => rest = []
      | Raise _ => rest <> [] \/ fault = Some 0%nat \/ node = FetchError
      end).
Proof.
  unfold process_chain_try, select_meta.
  wp_step. wp_step. wp_step.
  - exists [], (pending node t). cbn. repeat split; auto. constructor.
  - cbv beta iota. wp_step. wp_step. cbv beta iota. wp_step. cbv beta iota.
    wp_step. wp_step; cbv beta iota.
    + destruct node as [|chain]; [discriminate|].
      match goal with H : Ok _ = Ok _ |- _ => injection H as <- end.
      change (match last_processed_block_row _ with Some v => v | None => 0 end)
        with (checkpoint t).
      unfold pending.
      destruct (new_blocks (checkpoint t) chain) as [|b nb] eqn:E.
      * apply wp_ret. exists [], []. cbn. repeat split; auto. constructor.
      * eapply wp_mono; [apply process_blocks_wp; reflexivity|].
        intros r c' (done & rest & j & Hb & Hc & Ha & Hr).
        exists done, rest. cbn in Ha, Hc. subst j. repeat split; auto.
        destruct r; [tauto | auto].
    + destruct node as [|chain]; [|discriminate].
      exists [], []. cbn. repeat split; auto. constructor.
Qed.

Lemma process_chain_spec lib fault node t :
  exists done rest,
    pending node t = (done ++ rest)%list /\
    committed t done (journal (process_chain lib fault node t))
                     (store (process_chain lib fault node t)) /\
    (status (process_chain lib fault node t) = Completed -> rest = []) /\
    (rest = [] -> fault <> Some 0%nat -> node <> FetchError ->
     status (process_chain lib fault node t) = Completed).
Proof.
  unfold process_chain.
  pose proof (process_chain_try_wp lib fault node t) as H. unfold wp in H.
  destruct (process_chain_try lib fault node (get_db_connection t)) as [r c'].
  cbn in *. destruct H as (done & rest & Hp & Hc & Hr).
  exists done, rest. repeat split; auto.
  - destruct r as [[]|[]]; cbn; auto; discriminate.
  - intros -> Hf Hn. destruct r as [[]|e]; [reflexivity|]. intuition congruence.
Qed.

(** ** The [refs] table *)

Lemma key_matches_eq k1 k2 r :
  key_matches k1 k2 r = true -> repo_id r = k1 /\ ref_name r = k2.
Proof.
  unfold key_matches, sql_eq. intros H. apply andb_true_iff in H as [H1 H2].
  destruct (repo_id r), (ref_name r), k1, k2; try discriminate.
  apply String.eqb_eq in H1, H2. subst. auto.
Qed.

Lemma key_matches_refl rid ref r :
  repo_id r = Some rid -> ref_name r = Some ref ->
  key_matches (Some rid) (Some ref) r = true.
Proof.
  unfold key_matches, sql_eq. intros -> ->. rewrite !String.eqb_refl. reflexivity.
Qed.

Lemma find_insert_same rid ref r l :
  key_matches (Some rid) (Some ref) r = true ->
  find (key_matches (Some rid) (Some ref))
       (filter (fun r' => negb (key_matches (repo_id r) (ref_name r) r')) l ++ [r]) = Some r.
Proof.
  intros H. destruct (key_matches_eq _ _ _ H) as [-> ->].
  induction l as [|x l IH]; cbn.
  - rewrite H. reflexivity.
  - destruct (key_matches (Some rid) (Some ref) x) eqn:E; cbn; [exact IH|].
    rewrite E. exact IH.
Qed.

Lemma find_insert_other rid ref r l :
  key_matches (Some rid) (Some ref) r = false ->
  find (key_matches (Some rid) (Some ref))
       (filter (fun r' => negb (key_matches (repo_id r) (ref_name r) r')) l ++ [r]) =
  find (key_matches (Some rid) (Some ref)) l.
Proof.
  intros H. induction l as [|x l IH]; cbn.
  - rewrite H. reflexivity.
  - destruct (key_matches (Some rid) (Some ref) x) eqn:E.
    + destruct (key_matches (repo_id r) (ref_name r) x) eqn:E'; cbn.
      * apply key_matches_eq in E as [E1 E2], E' as [E1' E2'].
        rewrite key_matches_refl in H by congruence. discriminate.
      * rewrite E. reflexivity.
    + destruct (key_matches (repo_id r) (ref_name r) x); cbn; [exact IH|].
      rewrite E. exact IH.
Qed.

Lemma get_head_insert_same t r rid ref :
  key_matches (Some rid) (Some ref) r = true ->
  get_head (insert_or_replace t r) rid ref = commit_hash r.
Proof.
  intros H. unfold get_head, select_commit_hash, insert_or_replace. cbn.
  rewrite find_insert_same by exact H. reflexivity.
Qed.

Lemma get_head_insert_other t r rid ref :
  key_matches (Some rid) (Some ref) r = false ->
  get_head (insert_or_replace t r) rid ref = get_head t rid ref.
Proof.
  intros H. unfold get_head, select_commit_hash, insert_or_replace. cbn.
  rewrite find_insert_other by exact H. reflexivity.
Qed.

Lemma get_head_update_meta t v rid ref :
  get_head (update_meta t v) rid ref = get_head t rid ref.
Proof.
  unfold get_head, select_commit_hash, update_meta.
  destruct (last_processed_block_row t); reflexivity.
Qed.

Lemma current_get_head t r rid ref :
  key_matches (Some rid) (Some ref) r = true ->
  current t r = get_head t rid ref.
Proof.
  intros H. destruct (key_matches_eq _ _ _ H) as [E1 E2].
  unfold current, get_head. rewrite E1, E2. reflexivity.
Qed.

Lemma setup_database_row t : last_processed_block_row (setup_database t) <> None.
Proof.
  unfold setup_database. destruct (last_processed_block_row t) eqn:E; cbn; congruence.
Qed.

Lemma setup_database_again t : setup_database (setup_database t) = setup_database t.
Proof.
  unfold setup_database. destruct (last_processed_block_row t) eqn:E; cbn; [rewrite E|];
    reflexivity.
Qed.

(** After [INSERT OR REPLACE] the new row is the only one with its key. *)
Lemma insert_or_replace_one_row t r rid ref :
  key_matches (Some rid) (Some ref) r = true ->
  filter (key_matches (Some rid) (Some ref)) (refs (insert_or_replace t r)) = [r].
Proof.
  intros H. destruct (key_matches_eq _ _ _ H) as [E1 E2].
  unfold insert_or_replace. cbn. rewrite E1, E2, filter_app. cbn. rewrite H.
  induction (refs t) as [|x l IH]; cbn; [reflexivity|].
  destruct (key_matches (Some rid) (Some ref) x) eqn:E; cbn; [exact IH|].
  rewrite E. exact IH.
Qed.

(** ** Custody along a journal *)

Lemma custody_app h es1 h1 es2 h2 :
  custody h es1 h1 -> custody h1 es2 h2 -> custody h (es1 ++ es2) h2.
Proof.
  induction 1; cbn; auto. intros H'. econstructor; eauto.
Qed.

Lemma accepted_on_app rid ref j1 j2 :
  accepted_on rid ref (j1 ++ j2) = (accepted_on rid ref j1 ++ accepted_on rid ref j2)%list.
Proof. apply filter_app. Qed.

Lemma replayed_custody b t txs evs t' :
  replayed b t txs evs t' ->
  forall rid ref,
    custody (get_head t rid ref) (accepted_on rid ref evs) (get_head t' rid ref).
Proof.
  induction 1 as [t|t tx v t' txs evs t'' Hj _ IH]; intros rid ref; cbn.
  - constructor.
  - unfold is_update_on. cbn. destruct v; cbn in Hj; subst; try apply IH.
    destruct Hj as (-> & Hold & Hnew & _).
    destruct (key_matches (Some rid) (Some ref) r) eqn:E.
    + econstructor; cbn; eauto.
      * rewrite <- (current_get_head t _ _ _ E). exact Hold.
      * rewrite <- (get_head_insert_same t _ _ _ E). apply IH.
    + rewrite <- (get_head_insert_other t _ _ _ E). apply IH.
Qed.

Lemma committed_custody t bs j t' :
  committed t bs j t' ->
  forall rid ref,
    custody (get_head t rid ref) (accepted_on rid ref j) (get_head t' rid ref).
Proof.
  induction 1 as [t|t b evs t' bs j t'' Hr _ _ IH]; intros rid ref.
  - constructor.
  - rewrite accepted_on_app. eapply custody_app.
    + eapply replayed_custody; eauto.
    + rewrite <- (get_head_update_meta t' (index b)). apply IH.
Qed.

(** On a key whose [repo_id] and [ref] are both texts the chain of custody
    holds.  Over any sequence of cycles, with any answers of the node and
    any database faults, the transactions accepted on such a key form one
    chain: it starts at the head stored before the first cycle
    ([GENESIS_COMMIT] when the key has no row), each accepted transaction
    names as [old_commit] the head left by the one before it, and the chain
    ends at the head stored after the last cycle. *)
Theorem chain_of_custody lib cs t rid ref :
  get_head t rid ref =
    match select_commit_hash t (Some rid) (Some ref) with
    | Some h => h
    | None => GENESIS_COMMIT
    end /\
  custody (get_head t rid ref)
          (accepted_on rid ref (snd (run_cycles lib cs t)))
          (get_head (fst (run_cycles lib cs t)) rid ref).
Proof.
  split; [reflexivity|].
  revert t. induction cs as [|c cs IH]; intros t; cbn [run_cycles].
  - constructor.
  - specialize (IH (store (process_chain lib (db_fault c) (node c) t))).
    destruct (run_cycles lib cs _) as [t' j]. cbn [fst snd] in *.
    rewrite accepted_on_app. eapply custody_app; [|exact IH].
    destruct (process_chain_spec lib (db_fault c) (node c) t) as (done & rest & _ & Hc & _).
    eapply committed_custody; eauto.
Qed.

(** A [SELECT] with a [NULL] parameter finds no row: SQL [=] is never true
    on [NULL]. *)
Lemma select_null_ref t rid : select_commit_hash t rid None = None.
Proof.
  unfold select_commit_hash.
  replace (find (key_matches rid None) (refs t)) with (@None row); [reflexivity|].
  induction (refs t) as [|r l IH]; cbn; [reflexivity|].
  unfold key_matches at 1, sql_eq.
  destruct (repo_id r), rid, (ref_name r); cbn; try exact IH;
    rewrite andb_false_r; exact IH.
Qed.

(** C1.  The chain of custody breaks on a key whose [ref] is JSON [null].
    The [SELECT] of the consistency check never finds a row for such a key,
    so the head it reads is [GENESIS_COMMIT] whatever was accepted before,
    and [INSERT OR REPLACE] replaces nothing, since the key columns admit
    [NULL] and two [NULL] never clash.  On a block that lists one signed
    attestation from genesis twice and then another one from genesis, all
    three are accepted: each names [GENESIS_COMMIT] as [old_commit], the
    table ends with three rows for the one key, and the accepted updates
    form no chain from any head. *)
Theorem null_ref_breaks_custody :
  (forall t rid, select_commit_hash t rid None = None) /\
  let o := process_chain toy_ecdsa None (Fetched [block_null_ref]) fresh in
  status o = Completed /\
  journal o = [mk_entry block_null_ref (JObj null_a) (Updated (null_row a1a1));
               mk_entry block_null_ref (JObj null_a) (Updated (null_row a1a1));
               mk_entry block_null_ref (JObj null_b) (Updated (null_row b2b2))] /\
  Forall (fun e => getitem (e_tx e) "old_commit" = Ok (JStr GENESIS_COMMIT)) (journal o) /\
  refs (store o) = [null_row a1a1; null_row a1a1; null_row b2b2] /\
  forall h h', ~ custody h (journal o) h'.
Proof.
  split; [exact select_null_ref|]. cbv zeta.
  assert (Hj : journal (process_chain toy_ecdsa None (Fetched [block_null_ref]) fresh) =
               [mk_entry block_null_ref (JObj null_a) (Updated (null_row a1a1));
                mk_entry block_null_ref (JObj null_a) (Updated (null_row a1a1));
                mk_entry block_null_ref (JObj null_b) (Updated (null_row b2b2))])
    by (vm_compute; reflexivity).
  split; [vm_compute; reflexivity|]. split; [exact Hj|].
  split; [rewrite Hj; repeat constructor|].
  split; [vm_compute; reflexivity|].
  intros h h' Hc. rewrite Hj in Hc.
  inversion Hc as [|h0 e r es h1 Hv _ _ Hrest]; subst.
  cbn in Hv. injection Hv as <-.
  inversion Hrest as [|h0 e r es h1 _ Hold _ _]; subst.
  vm_compute in Hold. discriminate Hold.
Qed.

(** ** [sorted] *)

Section SortedFacts.
Variables (A : Type) (key : A -> Z).

Let le (x y : A) : Prop := key x <= key y.

Lemma insert_by_In x y l : In y (insert_by Z.leb key x l) <-> y = x \/ In y l.
Proof.
    induction l as [|z l IH]; cbn.
    - intuition congruence.
    - destruct (key x <=? key z); cbn; [intuition congruence|].
      rewrite IH. intuition congruence.
Qed.

Lemma sorted_In y l : In y (sorted Z.leb key l) <-> In y l.
Proof.
    induction l as [|x l IH]; cbn; [tauto|].
    rewrite insert_by_In, IH. intuition congruence.
Qed.

Lemma insert_by_ordered x l :
    StronglySorted le l -> StronglySorted le (insert_by Z.leb key x l).
Proof.
    induction 1 as [|z l Hs IH Hf]; cbn.
    - repeat constructor.
    - destruct (key x <=? key z) eqn:E.
      + apply Z.leb_le in E. constructor; [constructor; auto|].
        constructor; [exact E|].
        eapply Forall_impl; [|exact Hf]. unfold le. intros; lia.
      + apply Z.leb_gt in E. constructor; [exact IH|].
        apply Forall_forall. intros y Hy. apply insert_by_In in Hy as [->|Hy].
        * unfold le. lia.
        * rewrite Forall_forall in Hf. auto.
Qed.

Lemma sorted_ordered l : StronglySorted le (sorted Z.leb key l).
Proof.
    induction l; cbn; [constructor | apply insert_by_ordered; assumption].
Qed.

Lemma ordered_prefix l1 l2 :
    StronglySorted le (l1 ++ l2) -> StronglySorted le l1.
Proof.
    induction l1 as [|x l1 IH]; cbn; intros H; [constructor|].
    apply StronglySorted_inv in H as [H Hf]. constructor; auto.
    apply Forall_app in Hf. tauto.
Qed.

Lemma ordered_before l1 x l2 :
    StronglySorted le (l1 ++ x :: l2) -> Forall (fun y => key y <= key x) l1.
Proof.
    induction l1 as [|z l1 IH]; cbn; intros H; [constructor|].
    apply StronglySorted_inv in H as [H Hf]. constructor; auto.
    apply Forall_app in Hf as [_ Hf]. apply Forall_inv in Hf. exact Hf.
Qed.

Lemma sorted_of_ordered l : StronglySorted le l -> sorted Z.leb key l = l.
Proof.
    induction 1 as [|x l Hs IH Hf]; cbn; [reflexivity|].
    rewrite IH. destruct l as [|y l]; [reflexivity|]. cbn.
    apply Forall_inv in Hf. unfold le in Hf.
    apply Z.leb_le in Hf. rewrite Hf. reflexivity.
Qed.
End SortedFacts.

Lemma new_blocks_In last chain b :
  In b (new_blocks last chain) <-> In b chain /\ last < index b.
Proof.
  unfold new_blocks. rewrite filter_In, Z.ltb_lt. tauto.
Qed.

Lemma pending_In node t b :
  In b (pending node t) ->
  exists chain, node = Fetched chain /\ In b chain /\ checkpoint t < index b.
Proof.
  destruct node as [|chain]; cbn; [tauto|].
  rewrite sorted_In, new_blocks_In. eauto.
Qed.

(** ** What the committed blocks leave behind *)

Lemma replayed_shape b t txs evs t' :
  replayed b t txs evs t' ->
  map e_tx evs = txs /\
  Forall (fun e => e_block e = index b) evs /\
  last_processed_block_row t' = last_processed_block_row t.
Proof.
  induction 1 as [t|t tx v t' txs evs t'' Hj _ (IH1 & IH2 & IH3)]; cbn; auto.
  repeat split; [congruence | constructor; auto |].
  rewrite IH3. destruct v; cbn in Hj; try congruence.
  destruct Hj as [-> _]. reflexivity.
Qed.

Lemma update_meta_row t v :
  last_processed_block_row (update_meta t v) =
  option_map (fun _ => v) (last_processed_block_row t).
Proof.
  unfold update_meta. destruct (last_processed_block_row t) eqn:E; cbn; auto.
Qed.

Lemma committed_blocks t bs j t' :
  committed t bs j t' ->
  Forall (fun e => exists b, In b bs /\ e_block e = index b) j.
Proof.
  induction 1 as [t|t b evs t' bs j t'' Hr _ _ IH]; [constructor|].
  apply Forall_app. split.
  - destruct (replayed_shape _ _ _ _ _ Hr) as (_ & Hf & _).
    eapply Forall_impl; [|exact Hf]. cbn. intros e He. exists b. auto.
  - eapply Forall_impl; [|exact IH]. cbn. intros e (b' & Hb & He). eauto.
Qed.

(** Either nothing was committed, or the journal ends with the verdicts of
    every transaction of the last committed block, whose index is the
    checkpoint. *)
Lemma committed_last t bs j t' :
  committed t bs j t' ->
  (bs = [] /\ j = [] /\ t' = t) \/
  exists bs' B pre evaluated,
    bs = (bs' ++ [B])%list /\ j = (pre ++ evaluated)%list /\
    map e_tx evaluated = transactions B /\
    Forall (fun e => e_block e = index B) evaluated /\
    int64 (index B) = true /\
    last_processed_block_row t' =
      option_map (fun _ => index B) (last_processed_block_row t).
Proof.
  induction 1 as [t|t b evs t' bs j t'' Hr Hi Hc IH]; [auto|]. right.
  destruct (replayed_shape _ _ _ _ _ Hr) as (Hm & Hf & Hrow).
  destruct IH as [(-> & -> & ->)|(bs' & B & pre & evd & -> & -> & Hm' & Hf' & Hi' & Hrow')].
  - exists [], b, [], evs. rewrite app_nil_r, update_meta_row, Hrow. auto 10.
  - exists (b :: bs'), B, (evs ++ pre)%list, evd.
    rewrite Hrow', update_meta_row, Hrow, app_assoc.
    repeat split; auto. destruct (last_processed_block_row t); reflexivity.
Qed.

(** ** The table that the committed verdicts leave *)

Lemma apply_updates_app j1 j2 t :
  apply_updates (j1 ++ j2) t = apply_updates j2 (apply_updates j1 t).
Proof. apply fold_left_app. Qed.

Lemma apply_updates_refs j : forall t1 t2,
  refs t1 = refs t2 -> refs (apply_updates j t1) = refs (apply_updates j t2).
Proof.
  induction j as [|e j IH]; intros t1 t2 H; cbn; [exact H|].
  apply IH. destruct (e_verdict e); auto.
  unfold insert_or_replace. cbn. rewrite H. reflexivity.
Qed.

Lemma replayed_apply b t txs evs t' :
  replayed b t txs evs t' -> t' = apply_updates evs t.
Proof.
  induction 1 as [t|t tx v t' txs evs t'' Hj _ IH]; [reflexivity|].
  cbn. rewrite IH. unfold apply_updates. f_equal.
  destruct v; cbn in Hj; auto. destruct Hj as [-> _]. reflexivity.
Qed.

Lemma update_meta_refs t v : refs (update_meta t v) = refs t.
Proof. unfold update_meta. destruct (last_processed_block_row t); reflexivity. Qed.

Lemma committed_refs t bs j t' :
  committed t bs j t' -> refs t' = refs (apply_updates j t).
Proof.
  induction 1 as [t|t b evs t' bs j t'' Hr _ _ IH]; [reflexivity|].
  rewrite IH, apply_updates_app. apply apply_updates_refs.
  rewrite update_meta_refs, (replayed_apply _ _ _ _ _ Hr). reflexivity.
Qed.

Lemma head_row_fold rid ref j : forall t,
  head_row (apply_updates j t) rid ref =
  fold_left (fun acc e => match e_verdict e with
                          | Updated r =>
                              if key_matches (Some rid) (Some ref) r then Some r else acc
                          | _ => acc
                          end) j (head_row t rid ref).
Proof.
  induction j as [|e j IH]; intros t; cbn; [reflexivity|].
  rewrite IH. f_equal. destruct (e_verdict e); auto.
  unfold head_row, insert_or_replace. cbn.
  destruct (key_matches (Some rid) (Some ref) r) eqn:E.
  - apply find_insert_same. exact E.
  - apply find_insert_other. exact E.
Qed.

Lemma fold_last_row rid ref j : forall acc,
  fold_left (fun acc e => match e_verdict e with
                          | Updated r =>
                              if key_matches (Some rid) (Some ref) r then Some r else acc
                          | _ => acc
                          end) j acc =
  match last_row rid ref j with
  | Some r => Some r
  | None => acc
  end.
Proof.
  unfold last_row. induction j as [|e j IH] using rev_ind; intros acc; [reflexivity|].
  rewrite !fold_left_app. cbn. destruct (e_verdict e); auto.
  destruct (key_matches (Some rid) (Some ref) r); auto.
Qed.

Lemma cycle_refs lib fault node t :
  refs (store (process_chain lib fault node t)) =
  refs (apply_updates (journal (process_chain lib fault node t)) t).
Proof.
  destruct (process_chain_spec lib fault node t) as (done & rest & _ & Hc & _).
  apply (committed_refs _ _ _ _ Hc).
Qed.

Lemma cycle_head_row lib fault node t rid ref :
  head_row (store (process_chain lib fault node t)) rid ref =
  match last_row rid ref (journal (process_chain lib fault node t)) with
  | Some r => Some r
  | None => head_row t rid ref
  end.
Proof.
  unfold head_row at 1. rewrite cycle_refs.
  fold (head_row (apply_updates (journal (process_chain lib fault node t)) t) rid ref).
  rewrite head_row_fold. apply fold_last_row.
Qed.

(** ** The checkpoint *)

Lemma checkpoint_of_row t t' v :
  last_processed_block_row t' = option_map (fun _ => v) (last_processed_block_row t) ->
  checkpoint t' = match last_processed_block_row t with Some _ => v | None => 0 end.
Proof.
  unfold checkpoint. intros ->. destruct (last_processed_block_row t); reflexivity.
Qed.

Lemma cycle_checkpoint_le lib fault node t :
  checkpoint t <= checkpoint (store (process_chain lib fault node t)).
Proof.
  destruct (process_chain_spec lib fault node t) as (done & rest & Hp & Hc & _).
  destruct (committed_last _ _ _ _ Hc)
    as [(_ & _ & ->)|(bs' & B & pre & evd & -> & _ & _ & _ & _ & Hrow)]; [lia|].
  rewrite (checkpoint_of_row _ _ _ Hrow). unfold checkpoint.
  destruct (last_processed_block_row t) eqn:E; [|lia].
  assert (HB : In B (pending node t)).
  { rewrite Hp. apply in_or_app. left. apply in_or_app. right. left. reflexivity. }
  apply pending_In in HB as (chain & _ & _ & Hlt).
  unfold checkpoint in Hlt. rewrite E in Hlt. lia.
Qed.

Lemma cycle_journal_new lib fault node t :
  Forall (fun e => checkpoint t < e_block e) (journal (process_chain lib fault node t)).
Proof.
  destruct (process_chain_spec lib fault node t) as (done & rest & Hp & Hc & _).
  eapply Forall_impl; [|exact (committed_blocks _ _ _ _ Hc)].
  cbn. intros e (b & Hb & ->).
  assert (HB : In b (pending node t)) by (rewrite Hp; apply in_or_app; auto).
  apply pending_In in HB as (chain & _ & _ & Hlt). exact Hlt.
Qed.

Lemma run_cycles_checkpoint_le lib cs : forall t,
  checkpoint t <= checkpoint (fst (run_cycles lib cs t)).
Proof.
  induction cs as [|c cs IH]; intros t; cbn [run_cycles]; [cbn; lia|].
  specialize (IH (store (process_chain lib (db_fault c) (node c) t))).
  destruct (run_cycles lib cs _) as [t' j]. cbn [fst] in *.
  pose proof (cycle_checkpoint_le lib (db_fault c) (node c) t). lia.
Qed.

Lemma run_cycles_journal_new lib cs : forall t,
  Forall (fun e => checkpoint t < e_block e) (snd (run_cycles lib cs t)).
Proof.
  induction cs as [|c cs IH]; intros t; cbn [run_cycles]; [constructor|].
  specialize (IH (store (process_chain lib (db_fault c) (node c) t))).
  destruct (run_cycles lib cs _) as [t' j]. cbn [snd] in *.
  apply Forall_app. split; [apply cycle_journal_new|].
  eapply Forall_impl; [|exact IH]. cbn. intros e He.
  pose proof (cycle_checkpoint_le lib (db_fault c) (node c) t). lia.
Qed.

Lemma cycle_advance lib fault node t :
  checkpoint (store (process_chain lib fault node t)) <> checkpoint t ->
  exists chain B pre evaluated,
    node = Fetched chain /\ In B chain /\
    index B = checkpoint (store (process_chain lib fault node t)) /\
    journal (process_chain lib fault node t) = (pre ++ evaluated)%list /\
    map e_tx evaluated = transactions B /\
    Forall (fun e => e_block e = index B) evaluated.
Proof.
  destruct (process_chain_spec lib fault node t) as (done & rest & Hp & Hc & _).
  destruct (committed_last _ _ _ _ Hc)
    as [(_ & _ & ->)|(bs' & B & pre & evd & -> & Hj & Hm & Hf & _ & Hrow)]; [tauto|].
  intros Hne. rewrite (checkpoint_of_row _ _ _ Hrow) in *.
  assert (HB : In B (pending node t)).
  { rewrite Hp. apply in_or_app. left. apply in_or_app. right. left. reflexivity. }
  apply pending_In in HB as (chain & -> & Hin & _).
  exists chain, B, pre, evd. repeat split; auto.
  unfold checkpoint in Hne. destruct (last_processed_block_row t); [reflexivity|tauto].
Qed.

Lemma cycle_journal_behind lib fault node t :
  last_processed_block_row t <> None ->
  Forall (fun e => e_block e <= checkpoint (store (process_chain lib fault node t)))
         (journal (process_chain lib fault node t)).
Proof.
  intros Hrow0.
  destruct (process_chain_spec lib fault node t) as (done & rest & Hp & Hc & _).
  pose proof (committed_blocks _ _ _ _ Hc) as Hb.
  destruct (committed_last _ _ _ _ Hc)
    as [(_ & -> & _)|(bs' & B & pre & evd & -> & _ & _ & _ & _ & Hrow)]; [constructor|].
  rewrite (checkpoint_of_row _ _ _ Hrow).
  destruct (last_processed_block_row t); [|tauto].
  assert (Hs : StronglySorted (fun x y => index x <= index y) (pending node t)).
  { destruct node; cbn; [constructor | apply sorted_ordered]. }
  rewrite Hp, <- app_assoc in Hs. cbn in Hs. apply ordered_before in Hs.
  eapply Forall_impl; [|exact Hb]. cbn. intros e (b & Hin & ->).
  apply in_app_or in Hin as [Hin|[->|[]]]; [|lia].
  rewrite Forall_forall in Hs. auto.
Qed.

(** C4.  Over a cycle [c] and any cycles [cs] after it: the checkpoint never
    decreases; no transaction of a block at or below the checkpoint is
    evaluated, in this cycle or a later one; when the cycle moves the
    checkpoint, it moves it to the index of a fetched block [B] every
    transaction of which has its verdict in the committed journal; what the
    cycle has committed lies at or below the new checkpoint, so that no
    later cycle evaluates it again; and the file that holds the new
    checkpoint holds the rows of the committed verdicts: its [refs] table is
    the table of the start with the accepted rows written over it in order,
    and the row that a [SELECT] finds for a key is the row of the last
    accepted transaction on that key, the row of the start when there is
    none. *)
Theorem checkpoint_invariant lib c cs t :
  let o := process_chain lib (db_fault c) (node c) t in
  (checkpoint t <= checkpoint (store o) /\
   checkpoint (store o) <= checkpoint (fst (run_cycles lib cs (store o)))) /\
  Forall (fun e => checkpoint t < e_block e) (snd (run_cycles lib (c :: cs) t)) /\
  Forall (fun e => checkpoint (store o) < e_block e) (snd (run_cycles lib cs (store o))) /\
  (checkpoint (store o) <> checkpoint t ->
   exists chain B pre evaluated,
     node c = Fetched chain /\ In B chain /\
     index B = checkpoint (store o) /\
     journal o = (pre ++ evaluated)%list /\
     map e_tx evaluated = transactions B /\
     Forall (fun e => e_block e = index B) evaluated) /\
  (last_processed_block_row t <> None ->
   Forall (fun e => e_block e <= checkpoint (store o)) (journal o)) /\
  refs (store o) = refs (apply_updates (journal o) t) /\
  (forall rid ref,
     head_row (store o) rid ref =
     match last_row rid ref (journal o) with
     | Some r => Some r
     | None => head_row t rid ref
     end).
Proof.
  cbv zeta. repeat split.
  - apply cycle_checkpoint_le.
  - apply run_cycles_checkpoint_le.
  - apply run_cycles_journal_new.
  - apply run_cycles_journal_new.
  - apply cycle_advance.
  - apply cycle_journal_behind.
  - apply cycle_refs.
  - apply cycle_head_row.
Qed.

(** ** A run that meets no fault is a run without faults *)

Lemma agrees_refl A (m : M A) : agrees m m.
Proof. intros c a c' H. exact H. Qed.

Lemma agrees_bind A B (m m' : M A) (k k' : A -> M B) :
  agrees m m' -> (forall a, agrees (k a) (k' a)) -> agrees (bind m k) (bind m' k').
Proof.
  intros Hm Hk c b c'. unfold bind.
  destruct (m c) as [[a|e] c1] eqn:E; [|discriminate].
  rewrite (Hm _ _ _ E). apply Hk.
Qed.

Lemma agrees_statement fault : agrees (statement fault) (statement None).
Proof.
  intros c a c'. unfold statement. destruct fault as [n|]; [|auto].
  destruct (Nat.eqb n (stmts c)); [discriminate|auto].
Qed.

Ltac agrees_go :=
  repeat first
    [ apply agrees_statement
    | apply agrees_bind; [|intros ?]
    | match goal with
      | |- agrees (if ?b then _ else _) _ => destruct b
      | |- agrees (match ?x with _ => _ end) _ => destruct x
      end
    | apply agrees_refl ].

Lemma process_tx_agrees lib fault b tx :
  agrees (process_tx lib fault b tx) (process_tx lib None b tx).
Proof.
  unfold process_tx, select_refs, insert_refs. cbv zeta. agrees_go.
Qed.

Lemma process_txs_agrees lib fault b txs :
  agrees (process_txs lib fault b txs) (process_txs lib None b txs).
Proof.
  induction txs; cbn [process_txs]; [apply agrees_refl|].
  apply agrees_bind; [apply process_tx_agrees | intros _; assumption].
Qed.

Lemma process_block_agrees lib fault b :
  agrees (process_block lib fault b) (process_block lib None b).
Proof.
  unfold process_block, execute_update_meta, commit.
  apply agrees_bind; [apply process_txs_agrees | intros _]. agrees_go.
Qed.

Lemma process_blocks_agrees lib fault bs :
  agrees (process_blocks lib fault bs) (process_blocks lib None bs).
Proof.
  induction bs; cbn [process_blocks]; [apply agrees_refl|].
  apply agrees_bind; [apply process_block_agrees | intros _; assumption].
Qed.

(** The committed part of a run is the complete run of a prefix. *)
Lemma process_blocks_prefix lib fault bs : forall c r c',
  staged c = [] -> view c = durable c ->
  process_blocks lib fault bs c = (r, c') ->
  exists done rest c_done,
    bs = (done ++ rest)%list /\
    process_blocks lib fault done c = (Ok tt, c_done) /\
    durable c_done = durable c' /\ applied c_done = applied c' /\
    match r with
    | Ok _ => rest = []
    | Raise _ => rest <> []
    end.
Proof.
  induction bs as [|b bs IH]; intros c r c' Hs Hv; cbn [process_blocks].
  - intros [= <- <-]. exists [], [], c. auto.
  - unfold bind at 1. pose proof (process_block_wp lib fault b c) as Hb. unfold wp in Hb.
    destruct (process_block lib fault b c) as [[[]|e] c1] eqn:E; cbn [fst snd] in Hb.
    + destruct Hb as (evs & t' & _ & _ & _ & Hv1 & Hs1 & _).
      intros H. destruct (IH _ _ _ Hs1 Hv1 H) as (done & rest & c_done & -> & Hd & Hrest).
      exists (b :: done), rest, c_done. split; [reflexivity|].
      split; [|exact Hrest]. cbn [process_blocks]. unfold bind. rewrite E. exact Hd.
    + intros [= <- <-]. destruct Hb as [Hd Ha].
      exists [], (b :: bs), c. repeat split; auto. discriminate.
Qed.

Lemma process_chain_try_run lib fault chain t :
  fault <> Some 0%nat ->
  process_chain_try lib fault (Fetched chain) (get_db_connection t) =
  process_blocks lib fault (pending (Fetched chain) t) (bump (get_db_connection t)).
Proof.
  intros Hf. unfold process_chain_try, select_meta, pending.
  change (checkpoint t) with
    (match last_processed_block_row t with Some v => v | None => 0 end).
  destruct fault as [[|n]|]; [tauto| |]; cbn;
    destruct (new_blocks _ chain); reflexivity.
Qed.

Lemma process_chain_try_fault0 lib node t :
  process_chain_try lib (Some 0%nat) node (get_db_connection t) =
  (Raise sqlite3_Error, bump (get_db_connection t)).
Proof. reflexivity. Qed.

Lemma filter_all A (P : A -> bool) l : Forall (fun x => P x = true) l -> filter P l = l.
Proof.
  induction 1 as [|x l Hx _ IH]; cbn; [reflexivity|]. rewrite Hx, IH. reflexivity.
Qed.

Lemma pending_prefix chain t done rest :
  pending (Fetched chain) t = (done ++ rest)%list ->
  pending (Fetched done) t = done.
Proof.
  intros Hp. unfold pending.
  assert (Hnew : new_blocks (checkpoint t) done = done).
  { apply filter_all. apply Forall_forall. intros b Hb. apply Z.ltb_lt.
    assert (HB : In b (pending (Fetched chain) t)) by (rewrite Hp; apply in_or_app; auto).
    apply pending_In in HB as (_ & _ & _ & Hlt). exact Hlt. }
  rewrite Hnew. apply sorted_of_ordered.
  apply (ordered_prefix _ _ done rest). rewrite <- Hp. apply sorted_ordered.
Qed.

(** Whatever happens in a cycle, it leaves the file and the journal that a
    complete cycle without faults leaves on a prefix of the pending
    blocks. *)
Lemma process_chain_prefix lib fault chain t :
  exists done rest,
    pending (Fetched chain) t = (done ++ rest)%list /\
    process_chain lib None (Fetched done) t =
      {| store := store (process_chain lib fault (Fetched chain) t);
         journal := journal (process_chain lib fault (Fetched chain) t);
         status := Completed |} /\
    (status (process_chain lib fault (Fetched chain) t) = Completed -> rest = []) /\
    (status (process_chain lib fault (Fetched chain) t) <> Completed ->
     fault <> Some 0%nat -> rest <> []).
Proof.
  assert (Hdec : fault = Some 0%nat \/ fault <> Some 0%nat).
  { destruct fault as [[|n]|]; auto; right; discriminate. }
  destruct Hdec as [->|Hf].
  - exists [], (pending (Fetched chain) t).
    unfold process_chain at 2 3 4 5. rewrite process_chain_try_fault0. cbn.
    repeat split; auto; try discriminate.
  - unfold process_chain at 2 3 4 5. rewrite (process_chain_try_run _ _ _ _ Hf).
    destruct (process_blocks lib fault _ _) as [r c'] eqn:E.
    apply process_blocks_prefix in E as (done & rest & c_done & Hp & Hd & Hdur & Happ & Hr);
      [|reflexivity|reflexivity].
    exists done, rest. split; [exact Hp|].
    apply process_blocks_agrees in Hd.
    unfold process_chain. rewrite process_chain_try_run by discriminate.
    rewrite (pending_prefix _ _ _ _ Hp), Hd. cbn [store journal status].
    rewrite Hdur, Happ. repeat split.
    + destruct r as [[]|[]]; cbn; auto; discriminate.
    + destruct r as [[]|e]; cbn; [tauto|auto].
Qed.

Lemma cycle_committed_prefix lib fault chain t :
  exists done rest,
    pending (Fetched chain) t = (done ++ rest)%list /\
    process_chain lib None (Fetched done) t =
      {| store := store (process_chain lib fault (Fetched chain) t);
         journal := journal (process_chain lib fault (Fetched chain) t);
         status := Completed |} /\
    committed t done (journal (process_chain lib fault (Fetched chain) t))
                     (store (process_chain lib fault (Fetched chain) t)) /\
    (status (process_chain lib fault (Fetched chain) t) <> Completed ->
     fault <> Some 0%nat -> rest <> []).
Proof.
  destruct (process_chain_prefix lib fault chain t) as (done & rest & Hp & Href & _ & Hne).
  exists done, rest. repeat split; auto.
  destruct (process_chain_spec lib None (Fetched done) t) as (done' & rest' & Hp' & Hc & Hr & _).
  rewrite Href in Hc, Hr. cbn in Hc, Hr.
  rewrite (Hr eq_refl), app_nil_r, (pending_prefix _ _ _ _ Hp) in Hp'. subst done'.
  exact Hc.
Qed.

Section SortedPermutation.
Variables (A : Type) (key : A -> Z).

Lemma insert_by_perm x l : Permutation (insert_by Z.leb key x l) (x :: l).
Proof.
    induction l as [|y l IH]; cbn; [reflexivity|].
    destruct (key x <=? key y); [reflexivity|].
    rewrite IH. apply perm_swap.
Qed.

Lemma sorted_perm l : Permutation (sorted Z.leb key l) l.
Proof.
    induction l as [|x l IH]; cbn; [reflexivity|].
    rewrite insert_by_perm. constructor. exact IH.
Qed.

Lemma ordered_after l1 x l2 :
    StronglySorted (fun a b => key a <= key b) (l1 ++ x :: l2) ->
    Forall (fun y => key x <= key y) l2.
Proof.
    induction l1 as [|z l1 IH]; cbn; intros H.
    - apply StronglySorted_inv in H. tauto.
    - apply StronglySorted_inv in H. tauto.
Qed.

Lemma NoDup_map_filter (P : A -> bool) l :
    NoDup (map key l) -> NoDup (map key (filter P l)).
Proof.
    induction l as [|x l IH]; cbn; intros H; [constructor|].
    apply NoDup_cons_iff in H as [Hx H].
    destruct (P x); cbn; auto. constructor; auto.
    intros Hin. apply Hx. apply in_map_iff in Hin as (y & Hy & Hin).
    apply filter_In in Hin as [Hin _]. apply in_map_iff. eauto.
Qed.
End SortedPermutation.

Lemma pending_NoDup chain t :
  NoDup (map index chain) -> NoDup (map index (pending (Fetched chain) t)).
Proof.
  intros H. unfold pending.
  eapply Permutation_NoDup.
  - apply Permutation_map. symmetry. apply sorted_perm.
  - apply NoDup_map_filter. exact H.
Qed.

(** The blocks not committed by a cycle stay beyond its checkpoint. *)
Lemma committed_rest_ahead chain t done rest j t' :
  NoDup (map index chain) ->
  pending (Fetched chain) t = (done ++ rest)%list ->
  committed t done j t' ->
  Forall (fun B => checkpoint t' < index B) rest.
Proof.
  intros Hnd Hp Hc. apply Forall_forall. intros B HB.
  assert (Hlt : checkpoint t < index B).
  { assert (H : In B (pending (Fetched chain) t)) by (rewrite Hp; apply in_or_app; auto).
    apply pending_In in H as (_ & _ & _ & H). exact H. }
  destruct (committed_last _ _ _ _ Hc)
    as [(_ & _ & ->)|(bs' & L & pre & evd & -> & _ & _ & _ & _ & Hrow)]; [exact Hlt|].
  rewrite (checkpoint_of_row _ _ _ Hrow).
  destruct (last_processed_block_row t) eqn:E; [|unfold checkpoint in Hlt; rewrite E in Hlt; exact Hlt].
  pose proof (sorted_ordered _ index (new_blocks (checkpoint t) chain)) as Hs.
  pose proof (pending_NoDup chain t Hnd) as Hn.
  unfold pending in Hp. rewrite Hp, <- app_assoc in Hs. cbn in Hs.
  apply ordered_after in Hs. rewrite Forall_forall in Hs. specialize (Hs _ HB).
  unfold pending in Hn. rewrite Hp, <- app_assoc, map_app in Hn. cbn in Hn.
  apply NoDup_remove_2 in Hn.
  assert (index L <> index B).
  { intros Heq. apply Hn. apply in_or_app. right. rewrite Heq. apply in_map. exact HB. }
  lia.
Qed.

(** A run of [process_blocks] that raises has completed the blocks before
    one block [B] and has raised within [B]; what follows [B] plays no
    part. *)
Lemma process_blocks_failing lib fault bs : forall c e c',
  process_blocks lib fault bs c = (Raise e, c') ->
  exists done B rest c_done,
    bs = (done ++ B :: rest)%list /\
    process_blocks lib fault done c = (Ok tt, c_done) /\
    process_blocks lib fault (done ++ [B]) c = (Raise e, c') /\
    durable c_done = durable c' /\ applied c_done = applied c'.
Proof.
  induction bs as [|b bs IH]; intros c e c'; cbn [process_blocks].
  - unfold ret. discriminate.
  - unfold bind at 1. pose proof (process_block_wp lib fault b c) as Hb. unfold wp in Hb.
    destruct (process_block lib fault b c) as [[[]|e1] c1] eqn:E; cbn [fst snd] in Hb.
    + intros H. destruct (IH _ _ _ H) as (done & B & rest & c_done & -> & Hd & Hf & Hdur).
      exists (b :: done), B, rest, c_done. split; [reflexivity|].
      cbn [process_blocks app]. unfold bind at 1 2. rewrite E. auto.
    + intros [= <- <-]. destruct Hb as [Hd Ha].
      exists [], b, bs, c. split; [reflexivity|]. split; [reflexivity|].
      cbn [process_blocks app]. unfold bind at 1. rewrite E. auto.
Qed.

Lemma completed_committed lib done t s j :
  pending (Fetched done) t = done ->
  process_chain lib None (Fetched done) t =
    {| store := s; journal := j; status := Completed |} ->
  committed t done j s.
Proof.
  intros Hp Href.
  destruct (process_chain_spec lib None (Fetched done) t) as (done' & rest' & Hp' & Hc & Hr & _).
  rewrite Href in Hc, Hr. cbn in Hc, Hr.
  rewrite (Hr eq_refl), app_nil_r, Hp in Hp'. subst done'. exact Hc.
Qed.

(** C6.  When a cycle ends in the handler of [sqlite3.Error], the file and
    the journal are those of a complete, fault-free cycle over the blocks
    [done] that precede the failing block: every block of [done] is applied
    in full, nothing of the failing block [B] or of a later one is, and the
    checkpoint is the one reached after [done].  The blocks [done] are those
    that the cycle had committed when the fault struck, and [B] is the block
    in which it struck: under the same fault a cycle over [done] alone runs
    to its end and commits them all, and a cycle over [done] and [B] ends
    exactly as the cycle itself.  When the indices of the chain are
    distinct, [B] and the blocks after it are still beyond the checkpoint,
    so the next cycle over the same chain takes them up again. *)
Theorem store_failure_atomic lib fault chain t :
  let o := process_chain lib fault (Fetched chain) t in
  status o = Absorbed sqlite3_Error ->
  exists done rest,
    pending (Fetched chain) t = (done ++ rest)%list /\
    process_chain lib None (Fetched done) t =
      {| store := store o; journal := journal o; status := Completed |} /\
    committed t done (journal o) (store o) /\
    (fault <> Some 0%nat ->
     process_chain lib fault (Fetched done) t =
       {| store := store o; journal := journal o; status := Completed |} /\
     exists B rest',
       rest = B :: rest' /\
       process_chain lib fault (Fetched (done ++ [B])) t = o) /\
    (NoDup (map index chain) ->
     Forall (fun B => checkpoint (store o) < index B /\
                      In B (pending (Fetched chain) (store o))) rest).
Proof.
  cbv zeta. intros Hst.
  assert (Hahead : forall done rest,
            pending (Fetched chain) t = (done ++ rest)%list ->
            committed t done (journal (process_chain lib fault (Fetched chain) t))
                             (store (process_chain lib fault (Fetched chain) t)) ->
            NoDup (map index chain) ->
            Forall (fun B => checkpoint (store (process_chain lib fault (Fetched chain) t))
                             < index B /\
                             In B (pending (Fetched chain)
                                     (store (process_chain lib fault (Fetched chain) t))))
                   rest).
  { intros done rest Hp Hc Hnd.
    pose proof (committed_rest_ahead _ _ _ _ _ _ Hnd Hp Hc) as Ha.
    rewrite Forall_forall in *. intros B HB. split; [auto|].
    unfold pending. apply sorted_In, new_blocks_In. split; [|auto].
    assert (H : In B (pending (Fetched chain) t)) by (rewrite Hp; apply in_or_app; auto).
    apply pending_In in H as (ch & [= <-] & H & _). exact H. }
  assert (Hdec : fault = Some 0%nat \/ fault <> Some 0%nat).
  { destruct fault as [[|n]|]; auto; right; discriminate. }
  destruct Hdec as [->|Hf].
  - exists [], (pending (Fetched chain) t).
    assert (Hc : committed t [] (journal (process_chain lib (Some 0%nat) (Fetched chain) t))
                   (store (process_chain lib (Some 0%nat) (Fetched chain) t))).
    { unfold process_chain. rewrite process_chain_try_fault0. cbn. constructor. }
    split; [reflexivity|]. split; [|split; [exact Hc|split; [tauto|]]].
    + unfold process_chain at 2 3. rewrite process_chain_try_fault0. reflexivity.
    + apply (Hahead [] _ eq_refl Hc).
  - assert (Hrun : process_chain lib fault (Fetched chain) t =
                   let (r, c) := process_blocks lib fault (pending (Fetched chain) t)
                                   (bump (get_db_connection t)) in
                   {| store := durable c; journal := applied c; status := handlers r |}).
    { unfold process_chain. rewrite (process_chain_try_run _ _ _ _ Hf). reflexivity. }
    destruct (process_blocks lib fault (pending (Fetched chain) t)
                (bump (get_db_connection t))) as [r c'] eqn:E.
    assert (Hr : r = Raise sqlite3_Error).
    { rewrite Hrun in Hst. cbn in Hst. destruct r as [[]|[]]; cbn in Hst; congruence. }
    subst r.
    destruct (process_blocks_failing _ _ _ _ _ _ E)
      as (done & B & rest & c_done & Hp & Hd & HB & Hdur & Happ).
    assert (Hp1 : pending (Fetched done) t = done) by exact (pending_prefix _ _ _ _ Hp).
    assert (Hp2 : pending (Fetched (done ++ [B])) t = (done ++ [B])%list).
    { apply (pending_prefix chain t (done ++ [B]) rest).
      rewrite <- app_assoc. exact Hp. }
    assert (Hfaulty : process_chain lib fault (Fetched done) t =
              {| store := store (process_chain lib fault (Fetched chain) t);
                 journal := journal (process_chain lib fault (Fetched chain) t);
                 status := Completed |}).
    { rewrite Hrun. unfold process_chain. rewrite (process_chain_try_run _ _ _ _ Hf).
      rewrite Hp1, Hd. cbn. rewrite Hdur, Happ. reflexivity. }
    assert (Hclean : process_chain lib None (Fetched done) t =
              {| store := store (process_chain lib fault (Fetched chain) t);
                 journal := journal (process_chain lib fault (Fetched chain) t);
                 status := Completed |}).
    { rewrite Hrun. unfold process_chain. rewrite process_chain_try_run by discriminate.
      rewrite Hp1, (process_blocks_agrees _ _ _ _ _ _ Hd). cbn.
      rewrite Hdur, Happ. reflexivity. }
    pose proof (completed_committed _ _ _ _ _ Hp1 Hclean) as Hc.
    exists done, (B :: rest). split; [exact Hp|]. split; [exact Hclean|].
    split; [exact Hc|]. split.
    + intros _. split; [exact Hfaulty|]. exists B, rest. split; [reflexivity|].
      rewrite Hrun. unfold process_chain. rewrite (process_chain_try_run _ _ _ _ Hf).
      rewrite Hp2, HB. reflexivity.
    + apply (Hahead _ _ Hp Hc).
Qed.

(** ** Failure of the fetch and re-delivery *)

Lemma fetch_error_outcome lib fault t :
  process_chain lib fault FetchError t =
  {| store := t; journal := [];
     status := Absorbed (match fault with
                         | Some O => sqlite3_Error
                         | _ => RequestException
                         end) |}.
Proof. destruct fault as [[|n]|]; reflexivity. Qed.

(** C8.  When the fetch raises a [RequestException], [process_chain] returns
    through an [except] clause with the file as it was and nothing
    committed: the handler is that of [RequestException], or that of
    [sqlite3.Error] when the [SELECT] that precedes the fetch has failed
    already.  The cycles that follow run as if this one had not taken
    place. *)
Theorem transport_failure lib fault t cs :
  let o := process_chain lib fault FetchError t in
  store o = t /\ journal o = [] /\
  status o = Absorbed (match fault with
                       | Some O => sqlite3_Error
                       | _ => RequestException
                       end) /\
  run_cycles lib ({| node := FetchError; db_fault := fault |} :: cs) t =
  run_cycles lib cs t.
Proof.
  cbv zeta. cbn [run_cycles node db_fault]. rewrite fetch_error_outcome. cbn.
  repeat split. destruct (run_cycles lib cs t); reflexivity.
Qed.

Lemma new_blocks_drop last chain1 b chain2 :
  index b <= last ->
  new_blocks last (chain1 ++ b :: chain2) = new_blocks last (chain1 ++ chain2).
Proof.
  intros H. unfold new_blocks. rewrite !filter_app. cbn.
  apply Z.ltb_ge in H. rewrite H. reflexivity.
Qed.

Lemma process_chain_pending lib fault chain chain' t :
  new_blocks (checkpoint t) chain = new_blocks (checkpoint t) chain' ->
  process_chain lib fault (Fetched chain) t = process_chain lib fault (Fetched chain') t.
Proof.
  intros H. unfold process_chain, process_chain_try.
  unfold bind at 1 3. destruct (select_meta fault (get_db_connection t)) as [[row|e] c] eqn:E;
    [|reflexivity].
  assert (Hrow : row = last_processed_block_row t).
  { unfold select_meta, bind, statement, get_view, ret in E. cbn in E.
    destruct fault as [n|]; [destruct (Nat.eqb n 0)|]; cbn in E; congruence. }
  subst row. unfold bind, lift.
  change (match last_processed_block_row t with Some v => v | None => 0 end)
    with (checkpoint t).
  rewrite H. reflexivity.
Qed.

Lemma nothing_pending lib fault chain t :
  new_blocks (checkpoint t) chain = [] ->
  store (process_chain lib fault (Fetched chain) t) = t /\
  journal (process_chain lib fault (Fetched chain) t) = [].
Proof.
  intros H. rewrite (process_chain_pending lib fault chain [] t) by exact H.
  destruct fault as [[|n]|]; cbn; auto.
Qed.

(** After a cycle that ran to its end, no block of the chain is beyond the
    checkpoint. *)
Lemma completed_nothing_pending lib fault chain t :
  last_processed_block_row t <> None ->
  status (process_chain lib fault (Fetched chain) t) = Completed ->
  new_blocks (checkpoint (store (process_chain lib fault (Fetched chain) t))) chain = [].
Proof.
  intros Hrow Hst.
  destruct (process_chain_spec lib fault (Fetched chain) t) as (done & rest & Hp & Hc & Hr & _).
  rewrite (Hr Hst), app_nil_r in Hp. clear Hr.
  pose proof (cycle_checkpoint_le lib fault (Fetched chain) t) as Hle.
  remember (store (process_chain lib fault (Fetched chain) t)) as t' eqn:Et'.
  clear Et'. unfold new_blocks.
  assert (Hall : Forall (fun b => index b <= checkpoint t') chain).
  { apply Forall_forall. intros b Hb.
    destruct (Z.le_gt_cases (index b) (checkpoint t)) as [Hold|Hnew]; [lia|].
    assert (Hin : In b done).
    { rewrite <- Hp. unfold pending. apply sorted_In, new_blocks_In. auto. }
    destruct (committed_last _ _ _ _ Hc)
      as [(-> & _)|(bs' & L & pre & evd & -> & _ & _ & _ & _ & Hrow')]; [destruct Hin|].
    rewrite (checkpoint_of_row _ _ _ Hrow').
    destruct (last_processed_block_row t); [|tauto].
    pose proof (sorted_ordered _ index (new_blocks (checkpoint t) chain)) as Hs.
    unfold pending in Hp. rewrite Hp in Hs. apply ordered_before in Hs.
    apply in_app_or in Hin as [Hin|[->|[]]]; [|lia].
    rewrite Forall_forall in Hs. auto. }
  clear - Hall.
  induction Hall as [|x l Hx _ IH]; cbn; [reflexivity|].
  apply Z.ltb_ge in Hx. rewrite Hx. exact IH.
Qed.

(** C5.  A block at or below the checkpoint is dropped by the filter on
    [index]: a cycle over a chain that holds it ends exactly as the cycle
    over the chain without it, and when no other block of the chain is
    beyond the checkpoint the cycle leaves [refs] and the checkpoint as they
    were and commits nothing.  Hence a chain processed to the end and
    delivered again changes nothing the second time. *)
Theorem redelivery_idempotent lib fault fault' t chain1 b chain2 :
  let chain := (chain1 ++ b :: chain2)%list in
  (index b <= checkpoint t ->
   process_chain lib fault (Fetched chain) t =
   process_chain lib fault (Fetched (chain1 ++ chain2)) t /\
   (Forall (fun b' => index b' <= checkpoint t) (chain1 ++ chain2) ->
    store (process_chain lib fault (Fetched chain) t) = t /\
    journal (process_chain lib fault (Fetched chain) t) = [])) /\
  (last_processed_block_row t <> None ->
   status (process_chain lib fault (Fetched chain) t) = Completed ->
   let once := store (process_chain lib fault (Fetched chain) t) in
   store (process_chain lib fault' (Fetched chain) once) = once /\
   journal (process_chain lib fault' (Fetched chain) once) = []).
Proof.
  cbv zeta. split.
  - intros Hb. split.
    + apply process_chain_pending. apply new_blocks_drop. exact Hb.
    + intros Hall. apply nothing_pending. rewrite new_blocks_drop by exact Hb.
      unfold new_blocks. induction Hall as [|x l Hx _ IH]; cbn; [reflexivity|].
      apply Z.ltb_ge in Hx. rewrite Hx. exact IH.
  - intros Hrow Hst. apply nothing_pending.
    apply completed_nothing_pending; assumption.
Qed.

(** ** The canonical message *)

Lemma lookup_absent k d : ~ In k (keys d) -> lookup k d = None.
Proof.
  induction d as [|[k' v] d IH]; cbn; [reflexivity|]. intros H.
  destruct (String.eqb_spec k k') as [->|_]; [tauto|]. apply IH. tauto.
Qed.

Lemma signed_field_cases k :
  existsb (String.eqb k) signed_fields = true ->
  k = "repo_id" \/ k = "ref" \/ k = "old_commit" \/ k = "new_commit".
Proof.
  unfold signed_fields. cbn [existsb].
  destruct (String.eqb_spec k "repo_id"); [auto|].
  destruct (String.eqb_spec k "ref"); [auto|].
  destruct (String.eqb_spec k "old_commit"); [auto|].
  destruct (String.eqb_spec k "new_commit"); [auto|].
  discriminate.
Qed.

Lemma unsigned_field k k' :
  existsb (String.eqb k) signed_fields = false ->
  In k' ["new_commit"; "old_commit"; "ref"; "repo_id"] ->
  String.eqb k' k = false.
Proof.
  intros H Hin. destruct (String.eqb_spec k' k) as [->|]; [|reflexivity].
  cbn in Hin.
  repeat (destruct Hin as [<-|Hin]; [vm_compute in H; discriminate|]). destruct Hin.
Qed.

Lemma attestation_data_sorted att :
  NoDup (keys att) ->
  sorted String.leb fst (map render (attestation_data att)) =
  map render (canonical_fields att).
Proof.
  induction att as [|[k v] att IH]; intros Hnd; [reflexivity|].
  cbn [keys map fst] in Hnd. apply NoDup_cons_iff in Hnd as [Hk Hnd].
  specialize (IH Hnd). unfold attestation_data in *. cbn [filter fst].
  destruct (existsb (String.eqb k) signed_fields) eqn:E.
  - cbn [map sorted]. rewrite IH. clear IH.
    pose proof (lookup_absent _ _ Hk) as Habs.
    unfold canonical_fields.
    destruct (signed_field_cases _ E) as [ -> | [ -> | [ -> | -> ]]]; cbn; rewrite ?Habs;
      repeat match goal with
             | |- context [lookup ?x att] => destruct (lookup x att)
             end; reflexivity.
  - rewrite IH. unfold canonical_fields. cbn [flat_map lookup].
    rewrite !(unsigned_field k) by (cbn; auto 6). reflexivity.
Qed.

Lemma canonical_message_explicit att :
  NoDup (keys att) ->
  canonical_message att =
  encode ("{" ++ String.concat ", " (map dumps_item (map render (canonical_fields att))) ++ "}").
Proof.
  intros H. unfold canonical_message. cbn [dumps].
  change (map (fun kv => match kv with (k, x) => (k, dumps x) end)) with (map render).
  rewrite attestation_data_sorted by exact H. reflexivity.
Qed.

Lemma canonical_fields_ext att1 att2 :
  (forall k, In k signed_fields -> lookup k att1 = lookup k att2) ->
  canonical_fields att1 = canonical_fields att2.
Proof.
  intros H. unfold canonical_fields. cbn.
  rewrite !H by (cbn; auto). reflexivity.
Qed.

Lemma verify_signature_try_dict lib att :
  verify_signature_try lib (JObj att) =
  (let? key_hex := getitem (JObj att) "signer_identity" in
   let? key_bytes := bytes_fromhex key_hex in
   let? vk := from_string lib key_bytes in
   let? sig_hex := getitem (JObj att) "signature" in
   let? signature := bytes_fromhex sig_hex in
   let? _ := verify lib vk signature (canonical_message att) in
   Ok true).
Proof. reflexivity. Qed.

(** C7.  The message whose signature is checked is the serialization of the
    signed fields that the attestation carries, in the order of their names
    ([new_commit], [old_commit], [ref], [repo_id]).  Two attestations that
    agree on these four fields have the same message, whatever their other
    fields; if moreover they carry the same [signer_identity] and
    [signature], [verify_signature] does not tell them apart. *)
Theorem canonical_message_signed_fields lib att1 att2 :
  NoDup (keys att1) -> NoDup (keys att2) ->
  (forall k, In k signed_fields -> lookup k att1 = lookup k att2) ->
  canonical_message att1 =
    encode ("{" ++ String.concat ", "
                     (map dumps_item (map render (canonical_fields att1))) ++ "}") /\
  canonical_message att1 = canonical_message att2 /\
  (lookup "signer_identity" att1 = lookup "signer_identity" att2 ->
   lookup "signature" att1 = lookup "signature" att2 ->
   verify_signature lib (JObj att1) = verify_signature lib (JObj att2)).
Proof.
  intros H1 H2 Hagree.
  assert (Hmsg : canonical_message att1 = canonical_message att2).
  { rewrite !canonical_message_explicit by assumption.
    rewrite (canonical_fields_ext _ _ Hagree). reflexivity. }
  repeat split.
  - apply canonical_message_explicit. exact H1.
  - exact Hmsg.
  - intros Hk Hs. unfold verify_signature.
    rewrite !verify_signature_try_dict. unfold getitem.
    rewrite Hk, Hs, Hmsg. reflexivity.
Qed.

(** ** [verify_signature] on malformed input *)

(** What [verify_signature] returns when both fields are [str]. *)
Lemma verify_signature_str lib att ks ss :
  lookup "signer_identity" att = Some (JStr ks) ->
  lookup "signature" att = Some (JStr ss) ->
  verify_signature lib (JObj att) =
  match fromhex ks with
  | None => Ok false
  | Some kb =>
      match from_string lib kb with
      | Raise BadSignatureError | Raise KeyError | Raise ValueError => Ok false
      | Raise e => Raise e
      | Ok vk =>
          match fromhex ss with
          | None => Ok false
          | Some sb =>
              match verify lib vk sb (canonical_message att) with
              | Ok _ => Ok true
              | Raise BadSignatureError | Raise KeyError | Raise ValueError => Ok false
              | Raise e => Raise e
              end
          end
      end
  end.
Proof.
  intros Hk Hs. unfold verify_signature, verify_signature_try, getitem, bytes_fromhex.
  rewrite Hk, Hs. cbn.
  destruct (fromhex ks) as [kb|]; cbn; [|reflexivity].
  destruct (from_string lib kb) as [vk|e]; cbn; [|destruct e; reflexivity].
  destruct (fromhex ss) as [sb|]; cbn; [|reflexivity].
  destruct (verify lib vk sb _) as [b|e]; cbn; [reflexivity | destruct e; reflexivity].
Qed.

(** The [except] clause lets an [AssertionError] of the key decoder pass. *)
Lemma verify_signature_key_rejected lib att ks kb :
  lookup "signer_identity" att = Some (JStr ks) ->
  fromhex ks = Some kb ->
  from_string lib kb = Raise AssertionError ->
  verify_signature lib (JObj att) = Raise AssertionError.
Proof.
  intros Hk Hh Hf. unfold verify_signature, verify_signature_try, getitem, bytes_fromhex.
  rewrite Hk. cbn. rewrite Hh. cbn. rewrite Hf. reflexivity.
Qed.

(** A [signer_identity] that is not a [str] makes the call raise. *)
Lemma verify_signature_signer_not_str lib att v :
  lookup "signer_identity" att = Some v ->
  (forall s, v <> JStr s) ->
  verify_signature lib (JObj att) = Raise TypeError.
Proof.
  intros Hk Hv. unfold verify_signature, verify_signature_try, getitem.
  rewrite Hk. destruct v; try reflexivity. destruct (Hv s eq_refl).
Qed.

(** C2.  On an attestation whose [signer_identity] is a number,
    [bytes.fromhex] raises [TypeError], which the [except] clause of
    [verify_signature] does not list: the call raises instead of returning
    [False], and [process_chain], which handles neither, ends with the
    exception. *)
Theorem verify_signature_raises_TypeError lib :
  verify_signature lib att_numeric_signer = Raise TypeError /\
  status (process_chain lib None (Fetched [block_numeric_signer])
                        (setup_database empty_tables)) = Propagated TypeError.
Proof. split; reflexivity. Qed.

(** ** The consistency decision *)

Lemma has_key k o : lookup k o <> None -> existsb (String.eqb k) (keys o) = true.
Proof.
  induction o as [|[k' v] o IH]; cbn; [tauto|].
  destruct (String.eqb k k'); cbn; auto.
Qed.

Lemma well_formed_all_in o rid ref old new :
  well_formed o rid ref old new -> py_all_in required_fields (JObj o) = Ok true.
Proof.
  intros (H1 & H2 & H3 & H4 & H5 & H6). unfold required_fields, py_all_in, py_in, rbind.
  rewrite !has_key by congruence. reflexivity.
Qed.

Lemma statement_ok fault c :
  fault <> Some (stmts c) -> statement fault c = (Ok tt, bump c).
Proof.
  unfold statement. intros H. destruct fault as [n|]; [|reflexivity].
  destruct (Nat.eqb_spec n (stmts c)); [congruence | reflexivity].
Qed.

Lemma process_tx_accept lib fault b o rid ref old new c :
  well_formed o rid ref old new ->
  verify_signature lib (JObj o) = Ok true ->
  int64 (timestamp b) = true ->
  fault <> Some (stmts c) -> fault <> Some (S (stmts c)) ->
  old = get_head (view c) rid ref ->
  process_tx lib fault b (JObj o) c =
  (Ok tt, after_update b (JObj o) (row_of b rid ref new) c).
Proof.
  intros Hwf Hsig Hts Hf1 Hf2 Hold.
  pose proof (well_formed_all_in _ _ _ _ _ Hwf) as Hall.
  destruct Hwf as (H1 & H2 & H3 & H4 & _).
  unfold process_tx, select_refs, insert_refs, bind, lift, ret, log, get_view, set_view,
    getitem, bind_integer.
  rewrite Hall, H1, H2, H3, H4, Hsig, Hts. cbn.
  rewrite (statement_ok fault c Hf1). cbn.
  unfold py_ne_str, is_str. fold (get_head (view c) rid ref). rewrite <- Hold.
  rewrite String.eqb_refl. cbn.
  rewrite (statement_ok fault (bump c) Hf2). reflexivity.
Qed.

Lemma process_tx_reject lib fault b o rid ref old new c :
  well_formed o rid ref old new ->
  verify_signature lib (JObj o) = Ok true ->
  fault <> Some (stmts c) ->
  old <> get_head (view c) rid ref ->
  process_tx lib fault b (JObj o) c =
  (Ok tt, after_skip b (JObj o) (Inconsistent (get_head (view c) rid ref)) 1 c).
Proof.
  intros Hwf Hsig Hf Hold.
  pose proof (well_formed_all_in _ _ _ _ _ Hwf) as Hall.
  destruct Hwf as (H1 & H2 & H3 & H4 & _).
  unfold process_tx, select_refs, insert_refs, bind, lift, ret, log, get_view, set_view,
    getitem, bind_integer.
  rewrite Hall, H1, H2, H3, Hsig. cbn.
  rewrite (statement_ok fault c Hf). cbn.
  unfold py_ne_str, is_str. fold (get_head (view c) rid ref).
  apply String.eqb_neq in Hold. rewrite Hold. reflexivity.
Qed.

(** C3.  For a well-formed attestation with a good signature, met at any
    point of a block with the database answering: the head it is compared
    with is the stored [commit_hash] of its key, [GENESIS_COMMIT] when the
    key has no row; when [old_commit] is that head the row of the key
    becomes [new_commit] with the timestamp of the block; otherwise the
    tables stay as they are.  In particular, on a key never seen, an
    [old_commit] of forty zeros is accepted and makes the first row, and any
    other is rejected. *)
Theorem consistency_decision lib fault b o rid ref old new c :
  well_formed o rid ref old new ->
  verify_signature lib (JObj o) = Ok true ->
  int64 (timestamp b) = true ->
  fault <> Some (stmts c) -> fault <> Some (S (stmts c)) ->
  let head := get_head (view c) rid ref in
  let accepted := after_update b (JObj o) (row_of b rid ref new) c in
  let rejected := after_skip b (JObj o) (Inconsistent head) 1 c in
  head = match select_commit_hash (view c) (Some rid) (Some ref) with
         | Some h => h
         | None => GENESIS_COMMIT
         end /\
  (old = head ->
   process_tx lib fault b (JObj o) c = (Ok tt, accepted) /\
   get_head (view accepted) rid ref = new) /\
  (old <> head ->
   process_tx lib fault b (JObj o) c = (Ok tt, rejected) /\
   view rejected = view c) /\
  (select_commit_hash (view c) (Some rid) (Some ref) = None ->
   (old = GENESIS_COMMIT -> process_tx lib fault b (JObj o) c = (Ok tt, accepted)) /\
   (old <> GENESIS_COMMIT -> process_tx lib fault b (JObj o) c = (Ok tt, rejected))).
Proof.
  intros Hwf Hsig Hts Hf1 Hf2. cbv zeta. split; [reflexivity|].
  split; [|split].
  - intros Hold. split.
    + eapply process_tx_accept; eauto.
    + cbn. apply get_head_insert_same. apply key_matches_refl; reflexivity.
  - intros Hold. split; [|reflexivity].
    eapply process_tx_reject; eauto.
  - intros Hnone.
    assert (Hhead : get_head (view c) rid ref = GENESIS_COMMIT).
    { unfold get_head. rewrite Hnone. reflexivity. }
    rewrite Hhead. split; intros Hold.
    + rewrite <- Hhead in Hold. eapply process_tx_accept; eauto.
    + rewrite <- Hhead in Hold |- *. eapply process_tx_reject; eauto.
Qed.

(** ** Skipped transactions *)

Lemma process_tx_skip lib fault b tx c v n :
  skipped lib fault c tx v n ->
  process_tx lib fault b tx c = (Ok tt, after_skip b tx v n c).
Proof.
  destruct 1 as [tx H|o rid ref Hall Hr Hs Hf Hsig|o rid ref old new Hwf Hsig Hf Hold].
  - unfold process_tx, bind, lift, log. rewrite H. reflexivity.
  - unfold process_tx, bind, lift, log, getitem. rewrite Hall, Hr, Hs, Hf, Hsig. reflexivity.
  - eapply process_tx_reject; eauto.
Qed.

(** C9.  A transaction skipped for a missing field, for its signature or
    for an [old_commit] that is not the head leaves the tables as they are,
    and the loop goes on with the transactions after it, in their order, on
    those tables: an attestation that follows and passes both checks is
    accepted. *)
Theorem partial_block_isolation lib fault b tx rest c v n :
  skipped lib fault c tx v n ->
  let c' := after_skip b tx v n c in
  process_tx lib fault b tx c = (Ok tt, c') /\
  view c' = view c /\ durable c' = durable c /\
  process_txs lib fault b (tx :: rest) c = process_txs lib fault b rest c' /\
  (forall o rid ref old new,
     well_formed o rid ref old new ->
     verify_signature lib (JObj o) = Ok true ->
     int64 (timestamp b) = true ->
     fault <> Some (stmts c') -> fault <> Some (S (stmts c')) ->
     old = get_head (view c) rid ref ->
     process_txs lib fault b (tx :: JObj o :: rest) c =
     process_txs lib fault b rest (after_update b (JObj o) (row_of b rid ref new) c')).
Proof.
  intros Hskip. cbv zeta.
  pose proof (process_tx_skip lib fault b tx c v n Hskip) as Htx.
  repeat split; auto.
  - cbn [process_txs]. unfold bind at 1. rewrite Htx. reflexivity.
  - intros o rid ref old new Hwf Hsig Hts Hf1 Hf2 Hold.
    cbn [process_txs]. unfold bind at 1. rewrite Htx. unfold bind at 1.
    erewrite process_tx_accept; eauto.
Qed.

(** ** Two attestations of one block on one key *)



Lemma process_blocks_app lib fault l1 l2 c :
  process_blocks lib fault (l1 ++ l2) c =
  bind (process_blocks lib fault l1) (fun _ => process_blocks lib fault l2) c.
Proof.
  revert c. induction l1 as [|b l1 IH]; intros c; cbn [process_blocks app].
  - reflexivity.
  - unfold bind at 1 2 3. destruct (process_block lib fault b c) as [[[]|e] c1]; [|reflexivity].
    rewrite IH. reflexivity.
Qed.












(** * The properties on the sample data *)

Lemma dict_a_well_formed : well_formed dict_a "r1" "main" GENESIS_COMMIT a1a1.
Proof. repeat split; try reflexivity; discriminate. Defined.


Lemma dict_c_well_formed : well_formed dict_c "r1" "main" b2b2 c3c3.
Proof. repeat split; try reflexivity; discriminate. Defined.

(** The scenario of the specification: block 1 moves [("r1", "main")] from
    genesis to [a1a1]; block 2 names a wrong [old_commit] and is rejected,
    and the checkpoint reaches 2 all the same. *)
Example scenario :
  let o := process_chain toy_ecdsa None (Fetched [block_1; block_stale]) fresh in
  get_head (store o) "r1" "main" = a1a1 /\
  checkpoint (store o) = 2 /\
  map e_verdict (journal o) =
    [Updated (row_of block_1 "r1" "main" a1a1); Inconsistent a1a1; NotAttestation] /\
  status o = Completed.
Proof. vm_compute. repeat split. Qed.

Lemma consistency_decision_witness :
  let c := get_db_connection fresh in
  well_formed dict_a "r1" "main" GENESIS_COMMIT a1a1 /\
  verify_signature toy_ecdsa (JObj dict_a) = Ok true /\
  select_commit_hash (view c) (Some "r1") (Some "main") = None /\
  process_tx toy_ecdsa None block_1 (JObj dict_a) c =
    (Ok tt, after_update block_1 (JObj dict_a) (row_of block_1 "r1" "main" a1a1) c) /\
  process_tx toy_ecdsa None block_stale (JObj dict_c) c =
    (Ok tt, after_skip block_stale (JObj dict_c) (Inconsistent GENESIS_COMMIT) 1 c).
Proof.
  cbv zeta.
  assert (Hsig_a : verify_signature toy_ecdsa (JObj dict_a) = Ok true)
    by (vm_compute; reflexivity).
  assert (Hsig_c : verify_signature toy_ecdsa (JObj dict_c) = Ok true)
    by (vm_compute; reflexivity).
  assert (Hf1 : @None nat <> Some (stmts (get_db_connection fresh))) by discriminate.
  assert (Hf2 : @None nat <> Some (S (stmts (get_db_connection fresh)))) by discriminate.
  split; [exact dict_a_well_formed|]. split; [exact Hsig_a|]. split; [reflexivity|].
  split.
  - pose proof (consistency_decision toy_ecdsa None block_1 dict_a "r1" "main"
                  GENESIS_COMMIT a1a1 (get_db_connection fresh)
                  dict_a_well_formed Hsig_a eq_refl Hf1 Hf2) as H.
    cbv zeta in H. destruct H as (_ & Haccept & _).
    exact (proj1 (Haccept eq_refl)).
  - pose proof (consistency_decision toy_ecdsa None block_stale dict_c "r1" "main"
                  b2b2 c3c3 (get_db_connection fresh)
                  dict_c_well_formed Hsig_c eq_refl Hf1 Hf2) as H.
    cbv zeta in H. destruct H as (_ & _ & Hreject & _).
    refine (proj1 (Hreject _)). vm_compute. discriminate.
Defined.

Lemma checkpoint_invariant_witness :
  let c := {| node := Fetched [block_stale; block_1]; db_fault := None |} in
  let o := process_chain toy_ecdsa (db_fault c) (node c) fresh in
  checkpoint (store o) <> checkpoint fresh /\
  last_processed_block_row fresh <> None /\
  (exists chain B pre evaluated,
     node c = Fetched chain /\ In B chain /\
     index B = checkpoint (store o) /\
     journal o = (pre ++ evaluated)%list /\
     map e_tx evaluated = transactions B /\
     Forall (fun e => e_block e = index B) evaluated) /\
  Forall (fun e => e_block e <= checkpoint (store o)) (journal o) /\
  refs (store o) = refs (apply_updates (journal o) fresh) /\
  head_row (store o) "r1" "main" =
    match last_row "r1" "main" (journal o) with
    | Some r => Some r
    | None => head_row fresh "r1" "main"
    end /\
  head_row (store o) "r1" "main" = Some (row_of block_1 "r1" "main" a1a1).
Proof.
  cbv zeta.
  pose proof (checkpoint_invariant toy_ecdsa
                {| node := Fetched [block_stale; block_1]; db_fault := None |}
                [] fresh) as H.
  cbv zeta in H. destruct H as (_ & _ & _ & Hadvance & Hbehind & Hrefs & Hrows).
  assert (Hmoved : checkpoint (store (process_chain toy_ecdsa None
                     (Fetched [block_stale; block_1]) fresh)) <> checkpoint fresh)
    by (vm_compute; discriminate).
  assert (Hrow : last_processed_block_row fresh <> None) by discriminate.
  split; [exact Hmoved|]. split; [exact Hrow|].
  split; [exact (Hadvance Hmoved)|]. split; [exact (Hbehind Hrow)|].
  split; [exact Hrefs|]. split; [exact (Hrows "r1" "main")|].
  vm_compute. reflexivity.
Defined.

Lemma redelivery_idempotent_witness :
  let seen := store (process_chain toy_ecdsa None (Fetched [block_1]) fresh) in
  index block_1 <= checkpoint seen /\
  (process_chain toy_ecdsa None (Fetched [block_1; block_2]) seen =
   process_chain toy_ecdsa None (Fetched [block_2]) seen) /\
  (store (process_chain toy_ecdsa (Some 0%nat) (Fetched [block_1]) seen) = seen /\
   journal (process_chain toy_ecdsa (Some 0%nat) (Fetched [block_1]) seen) = []) /\
  (store (process_chain toy_ecdsa None (Fetched [block_1]) seen) = seen /\
   journal (process_chain toy_ecdsa None (Fetched [block_1]) seen) = []).
Proof.
  cbv zeta.
  set (seen := store (process_chain toy_ecdsa None (Fetched [block_1]) fresh)).
  assert (Hold : index block_1 <= checkpoint seen) by (vm_compute; discriminate).
  split; [exact Hold|]. split; [|split].
  - exact (proj1 (proj1 (redelivery_idempotent toy_ecdsa None None seen
                           [] block_1 [block_2]) Hold)).
  - exact (proj2 (proj1 (redelivery_idempotent toy_ecdsa (Some 0%nat) None seen
                           [] block_1 []) Hold) (Forall_nil _)).
  - assert (Hrow : last_processed_block_row fresh <> None) by discriminate.
    assert (Hdone : status (process_chain toy_ecdsa None (Fetched [block_1]) fresh)
                    = Completed) by (vm_compute; reflexivity).
    exact (proj2 (redelivery_idempotent toy_ecdsa None None fresh
                    [] block_1 []) Hrow Hdone).
Defined.

Lemma store_failure_atomic_witness :
  let chain := [block_2; block_1] in
  let o := process_chain toy_ecdsa (Some 6%nat) (Fetched chain) fresh in
  status o = Absorbed sqlite3_Error /\
  NoDup (map index chain) /\
  exists done rest,
    pending (Fetched chain) fresh = (done ++ rest)%list /\
    process_chain toy_ecdsa None (Fetched done) fresh =
      {| store := store o; journal := journal o; status := Completed |} /\
    committed fresh done (journal o) (store o) /\
    (process_chain toy_ecdsa (Some 6%nat) (Fetched done) fresh =
       {| store := store o; journal := journal o; status := Completed |} /\
     exists B rest',
       rest = B :: rest' /\
       process_chain toy_ecdsa (Some 6%nat) (Fetched (done ++ [B])) fresh = o) /\
    Forall (fun B => checkpoint (store o) < index B /\
                     In B (pending (Fetched chain) (store o))) rest.
Proof.
  cbv zeta.
  assert (Hst : status (process_chain toy_ecdsa (Some 6%nat)
                          (Fetched [block_2; block_1]) fresh) = Absorbed sqlite3_Error)
    by (vm_compute; reflexivity).
  assert (Hnd : NoDup (map index [block_2; block_1])).
  { cbn. constructor; [cbn; intros [H|[]]; discriminate H|].
    constructor; [intros []|constructor]. }
  assert (Hf : Some 6%nat <> Some 0%nat) by discriminate.
  split; [exact Hst|]. split; [exact Hnd|].
  destruct (store_failure_atomic toy_ecdsa (Some 6%nat) [block_2; block_1] fresh Hst)
    as (done & rest & Hp & Href & Hc & HB & Hretry).
  exists done, rest. split; [exact Hp|]. split; [exact Href|]. split; [exact Hc|].
  split; [exact (HB Hf) | exact (Hretry Hnd)].
Defined.

Ltac nodup_keys :=
  cbn; repeat (constructor; [cbn; intuition discriminate|]); constructor.

Lemma canonical_message_signed_fields_witness :
  let att1 := dict_a in
  let att2 := (("memo", JStr "hello") :: dict_a)%list in
  NoDup (keys att1) /\ NoDup (keys att2) /\
  canonical_message att1 =
    encode ("{" ++ quoted "new_commit" ++ ": " ++ quoted a1a1 ++ ", " ++
                   quoted "old_commit" ++ ": " ++ quoted GENESIS_COMMIT ++ ", " ++
                   quoted "ref" ++ ": " ++ quoted "main" ++ ", " ++
                   quoted "repo_id" ++ ": " ++ quoted "r1" ++ "}") /\
  canonical_message att1 = canonical_message att2 /\
  verify_signature toy_ecdsa (JObj att1) = verify_signature toy_ecdsa (JObj att2).
Proof.
  cbv zeta.
  assert (H1 : NoDup (keys dict_a)) by nodup_keys.
  assert (H2 : NoDup (keys (("memo", JStr "hello") :: dict_a))) by nodup_keys.
  assert (Hagree : forall k, In k signed_fields ->
            lookup k dict_a = lookup k (("memo", JStr "hello") :: dict_a)).
  { intros k Hk. cbn in Hk. destruct Hk as [<-|[<-|[<-|[<-|[]]]]]; reflexivity. }
  destruct (canonical_message_signed_fields toy_ecdsa dict_a
              (("memo", JStr "hello") :: dict_a) H1 H2 Hagree)
    as (Hform & Hsame & Hverify).
  split; [exact H1|]. split; [exact H2|]. split; [|split].
  - rewrite Hform. reflexivity.
  - exact Hsame.
  - exact (Hverify eq_refl eq_refl).
Defined.

Lemma partial_block_isolation_witness :
  let c := get_db_connection fresh in
  let c' := after_skip block_stale (JObj dict_c) (Inconsistent GENESIS_COMMIT) 1 c in
  skipped toy_ecdsa None c (JObj dict_c) (Inconsistent GENESIS_COMMIT) 1 /\
  process_tx toy_ecdsa None block_stale (JObj dict_c) c = (Ok tt, c') /\
  view c' = view c /\
  process_txs toy_ecdsa None block_stale [JObj dict_c; JObj dict_a] c =
  process_txs toy_ecdsa None block_stale []
    (after_update block_stale (JObj dict_a) (row_of block_stale "r1" "main" a1a1) c').
Proof.
  cbv zeta.
  assert (Hsig_c : verify_signature toy_ecdsa (JObj dict_c) = Ok true)
    by (vm_compute; reflexivity).
  assert (Hsig_a : verify_signature toy_ecdsa (JObj dict_a) = Ok true)
    by (vm_compute; reflexivity).
  assert (Hskip : skipped toy_ecdsa None (get_db_connection fresh) (JObj dict_c)
                    (Inconsistent GENESIS_COMMIT) 1).
  { apply (skipped_inconsistent toy_ecdsa None (get_db_connection fresh)
             dict_c "r1" "main" b2b2 c3c3 dict_c_well_formed Hsig_c).
    - discriminate.
    - vm_compute. discriminate. }
  destruct (partial_block_isolation toy_ecdsa None block_stale (JObj dict_c) []
              (get_db_connection fresh) (Inconsistent GENESIS_COMMIT) 1 Hskip)
    as (Htx & Hview & _ & _ & Hnext).
  split; [exact Hskip|]. split; [exact Htx|]. split; [exact Hview|].
  assert (Hf1 : @None nat <> Some (stmts (after_skip block_stale (JObj dict_c)
                   (Inconsistent GENESIS_COMMIT) 1 (get_db_connection fresh))))
    by discriminate.
  assert (Hf2 : @None nat <> Some (S (stmts (after_skip block_stale (JObj dict_c)
                   (Inconsistent GENESIS_COMMIT) 1 (get_db_connection fresh)))))
    by discriminate.
  assert (Hhead : GENESIS_COMMIT = get_head (view (get_db_connection fresh)) "r1" "main")
    by (vm_compute; reflexivity).
  exact (Hnext dict_a "r1" "main" GENESIS_COMMIT a1a1 dict_a_well_formed Hsig_a
           eq_refl Hf1 Hf2 Hhead).
Defined.



(** * Further properties of the replay engine *)

(** ** Verdicts and the checks behind them *)

Lemma wp_conj A (m : M A) c (Q1 Q2 : result A -> conn -> Prop) :
  wp m c Q1 -> wp m c Q2 -> wp m c (fun r c' => Q1 r c' /\ Q2 r c').
Proof. unfold wp. auto. Qed.

Section JournalInvariant.
Variable lib : Ecdsa.
Variable P : entry -> Prop.
Hypothesis P_tx : forall fault b tx c,
  wp (process_tx lib fault b tx) c (fun r c' =>
    exists evs, staged c' = (staged c ++ evs)%list /\ Forall P evs).

Lemma process_txs_inv fault b txs : forall c,
  wp (process_txs lib fault b txs) c (fun r c' =>
    applied c' = applied c /\
    exists evs, staged c' = (staged c ++ evs)%list /\ Forall P evs).
Proof.
  induction txs as [|tx txs IH]; intros c; cbn [process_txs].
  - apply wp_ret. split; [reflexivity|]. exists []. rewrite app_nil_r. auto.
  - apply wp_bind.
    eapply wp_mono; [apply (wp_conj _ _ _ _ _ (P_tx fault b tx c) (process_tx_wp lib fault b tx c))|].
    intros r c1 ((evs & Hs & Hf) & _ & Ha & _). destruct r as [[]|e].
    + eapply wp_mono; [apply IH|]. intros r c2 (Ha2 & evs2 & Hs2 & Hf2).
      split; [congruence|]. exists (evs ++ evs2)%list.
      rewrite Hs2, Hs, app_assoc. split; [reflexivity | apply Forall_app; auto].
    + split; [exact Ha|]. eauto.
Qed.

Lemma process_block_inv fault b c :
  staged c = [] ->
  wp (process_block lib fault b) c (fun r c' =>
    exists evs, applied c' = (applied c ++ evs)%list /\ Forall P evs /\
                match r with Ok _ => staged c' = [] | Raise _ => True end).
Proof.
  intros Hs0. unfold process_block, execute_update_meta, commit.
  apply wp_bind. eapply wp_mono; [apply process_txs_inv|].
  intros r c1 (Ha & evs & Hs & Hf). rewrite Hs0 in Hs. cbn in Hs.
  assert (Hnone : exists evs0, applied c1 = (applied c ++ evs0)%list /\ Forall P evs0 /\ True).
  { exists []. rewrite app_nil_r. auto. }
  destruct r as [[]|e]; [|exact Hnone].
  wp_steps; cbn; try exact Hnone.
  exists evs. rewrite Ha, Hs. auto.
Qed.

Lemma process_blocks_inv fault bs : forall c,
  staged c = [] ->
  wp (process_blocks lib fault bs) c (fun r c' =>
    exists evs, applied c' = (applied c ++ evs)%list /\ Forall P evs).
Proof.
  induction bs as [|b bs IH]; intros c Hs; cbn [process_blocks].
  - apply wp_ret. exists []. rewrite app_nil_r. auto.
  - apply wp_bind. eapply wp_mono; [apply process_block_inv; exact Hs|].
    intros r c1 (evs & Ha & Hf & Hs1). destruct r as [[]|e]; [|eauto].
    eapply wp_mono; [apply IH; exact Hs1|].
    intros r c2 (evs2 & Ha2 & Hf2). exists (evs ++ evs2)%list.
    rewrite Ha2, Ha, app_assoc. split; [reflexivity | apply Forall_app; auto].
Qed.

Lemma process_chain_inv fault node t :
  Forall P (journal (process_chain lib fault node t)).
Proof.
  unfold process_chain.
  destruct (process_chain_try lib fault node (get_db_connection t)) as [r c'] eqn:E.
  cbn [journal]. revert E. unfold process_chain_try, select_meta.
  intros E.
  assert (H : wp (process_chain_try lib fault node) (get_db_connection t)
                (fun _ c' => Forall P (applied c'))).
  { unfold process_chain_try, select_meta. wp_steps; cbn; auto.
    eapply wp_mono; [apply process_blocks_inv; reflexivity|].
    cbn. intros r0 c0 (evs & -> & Hf). exact Hf. }
  unfold wp in H. unfold process_chain_try, select_meta in H. rewrite E in H. exact H.
Qed.

Lemma run_cycles_inv cs : forall t, Forall P (snd (run_cycles lib cs t)).
Proof.
  induction cs as [|c cs IH]; intros t; cbn [run_cycles]; [constructor|].
  specialize (IH (store (process_chain lib (db_fault c) (node c) t))).
  destruct (run_cycles lib cs _) as [t' j]. cbn [snd] in *.
  apply Forall_app. split; [apply process_chain_inv | exact IH].
Qed.
End JournalInvariant.

Lemma process_tx_checked lib fault b tx c :
  wp (process_tx lib fault b tx) c (fun r c' =>
    exists evs, staged c' = (staged c ++ evs)%list /\ Forall (checked lib) evs).
Proof.
  unfold process_tx, select_refs, insert_refs. cbv zeta.
  wp_steps; cbn;
    try (exists []; rewrite app_nil_r; split; [reflexivity | constructor]).
  all: eexists [_]; (split; [reflexivity|]); constructor; [|constructor];
    unfold checked; cbn;
    repeat match goal with
           | H : negb ?x = true |- _ => apply negb_true_iff in H; subst x
           | H : negb ?x = false |- _ => apply negb_false_iff in H; subst x
           end; auto.
  - repeat split; auto. eexists; split; [eassumption|].
    eapply py_ne_str_true; eassumption.
  - repeat split; auto.
    match goal with
    | S : py_slice ?x = Ok ?u, B : bind_text ?x = Ok (Some _) |- _ =>
        destruct u; apply (bind_text_sliced _ _ S) in B; subst x
    end. assumption.
Qed.

(** X1.  Every verdict that a sequence of cycles commits is backed by the
    checks of the loop body: a row is written only for a transaction that
    has the six fields and a signature that [verify_signature] accepts; a
    transaction noted as inconsistent has both and an [old_commit] that
    differs from the head it met; one noted for its signature has the six
    fields and was refused by [verify_signature]; one noted as no
    attestation lacks a field. *)
Theorem verdicts_checked lib cs t :
  Forall (checked lib) (snd (run_cycles lib cs t)).
Proof.
  apply run_cycles_inv. intros fault b tx c. apply process_tx_checked.
Qed.

(** ** The [refs] table as a replay of the journal *)

Lemma run_cycles_refs lib cs : forall t,
  refs (fst (run_cycles lib cs t)) = refs (apply_updates (snd (run_cycles lib cs t)) t).
Proof.
  induction cs as [|c cs IH]; intros t; cbn [run_cycles]; [reflexivity|].
  specialize (IH (store (process_chain lib (db_fault c) (node c) t))).
  destruct (run_cycles lib cs _) as [t' j]. cbn [fst snd] in *.
  rewrite IH, apply_updates_app. apply apply_updates_refs.
  destruct (process_chain_spec lib (db_fault c) (node c) t) as (done & rest & _ & Hc & _).
  apply (committed_refs _ _ _ _ Hc).
Qed.

(** X2.  After any sequence of cycles the [refs] table is the table of the
    start with the rows of the accepted transactions written over it in the
    order of the journal: nothing else adds, changes or removes a row. *)
Theorem refs_replay lib cs t :
  refs (fst (run_cycles lib cs t)) =
  refs (apply_updates (snd (run_cycles lib cs t)) t).
Proof. apply run_cycles_refs. Qed.

(** X3.  After any sequence of cycles the row of a key is the one written
    by the last accepted transaction on that key in the journal, and the row
    it had at the start when the journal has none: a row is never removed,
    and only an accepted transaction on the very key changes it. *)
Theorem head_row_last_update lib cs t rid ref :
  head_row (fst (run_cycles lib cs t)) rid ref =
  match last_row rid ref (snd (run_cycles lib cs t)) with
  | Some r => Some r
  | None => head_row t rid ref
  end.
Proof.
  unfold head_row at 1. rewrite run_cycles_refs.
  fold (head_row (apply_updates (snd (run_cycles lib cs t)) t) rid ref).
  rewrite head_row_fold. apply fold_last_row.
Qed.

(** ** Where the entries of a journal come from *)

Lemma replayed_from_block b t txs evs t' :
  replayed b t txs evs t' ->
  Forall (fun e => e_block e = index b /\ In (e_tx e) txs /\
                   forall r, e_verdict e = Updated r -> updated_at r = timestamp b) evs.
Proof.
  induction 1 as [t|t tx v t' txs evs t'' Hj _ IH]; constructor.
  - cbn. repeat split; auto. intros r ->. cbn in Hj. tauto.
  - eapply Forall_impl; [|exact IH]. cbn. intros e (H1 & H2 & H3). auto.
Qed.

Lemma committed_from_block t bs j t' :
  committed t bs j t' ->
  Forall (fun e => exists b, In b bs /\ from_block b e) j.
Proof.
  induction 1 as [t|t b evs t' bs j t'' Hr _ _ IH]; [constructor|].
  apply Forall_app. split.
  - eapply Forall_impl; [|exact (replayed_from_block _ _ _ _ _ Hr)].
    cbn. intros e He. exists b. split; [auto | exact He].
  - eapply Forall_impl; [|exact IH]. cbn. intros e (b' & Hb & He). eauto.
Qed.

(** X4.  Every entry that a cycle commits comes from a transaction of a
    fetched block whose index is beyond the checkpoint of the start, and a
    row written for it carries the timestamp of that block. *)
Theorem journal_provenance lib fault node t :
  Forall (fun e => exists chain b,
            node = Fetched chain /\ In b chain /\ checkpoint t < index b /\
            from_block b e)
         (journal (process_chain lib fault node t)).
Proof.
  destruct (process_chain_spec lib fault node t) as (done & rest & Hp & Hc & _).
  eapply Forall_impl; [|exact (committed_from_block _ _ _ _ Hc)].
  cbn. intros e (b & Hb & He).
  assert (HB : In b (pending node t)) by (rewrite Hp; apply in_or_app; auto).
  apply pending_In in HB as (chain & Hn & Hin & Hlt).
  exists chain, b. auto.
Qed.

(** ** The outcomes of [verify_signature] *)

Ltac split_matches :=
  repeat (match goal with
          | |- context [match ?x with _ => _ end] => destruct x eqn:?
          end; cbn; try discriminate).

(** X5.  [verify_signature] returns [True] exactly when both fields are
    [str] that decode from hexadecimal, the key decoder accepts the key and
    the call of [verify] on the canonical message returns, whatever it
    returns: the result of [vk.verify] is not looked at. *)
Theorem verify_signature_true_iff lib att :
  verify_signature lib (JObj att) = Ok true <->
  exists ks kb vk ss sb b,
    lookup "signer_identity" att = Some (JStr ks) /\ fromhex ks = Some kb /\
    from_string lib kb = Ok vk /\
    lookup "signature" att = Some (JStr ss) /\ fromhex ss = Some sb /\
    verify lib vk sb (canonical_message att) = Ok b.
Proof.
  split.
  - unfold verify_signature. rewrite verify_signature_try_dict.
    unfold getitem, bytes_fromhex, rbind.
    destruct (lookup "signer_identity" att) as [[|?|?|ks|?|?]|] eqn:Hk; cbv beta iota;
      try (intros H; discriminate H).
    destruct (fromhex ks) as [kb|] eqn:Hkb; cbv beta iota;
      try (intros H; discriminate H).
    destruct (from_string lib kb) as [vk|[]] eqn:Hvk; cbv beta iota;
      try (intros H; discriminate H).
    destruct (lookup "signature" att) as [[|?|?|ss|?|?]|] eqn:Hs; cbv beta iota;
      try (intros H; discriminate H).
    destruct (fromhex ss) as [sb|] eqn:Hsb; cbv beta iota;
      try (intros H; discriminate H).
    destruct (verify lib vk sb (canonical_message att)) as [b|[]] eqn:E; cbv beta iota;
      try (intros H; discriminate H).
    intros _. exists ks, kb, vk, ss, sb, b. auto 10.
  - intros (ks & kb & vk & ss & sb & b & Hk & Hkb & Hvk & Hs & Hsb & Hv).
    rewrite (verify_signature_str lib att ks ss Hk Hs), Hkb, Hvk, Hsb, Hv. reflexivity.
Qed.

(** X6.  Whatever the package does, [verify_signature] returns [False] for
    a missing [signer_identity], for one that is a [str] but not
    hexadecimal, and, once the key is decoded, for a missing [signature],
    for one that is a [str] but not hexadecimal, and for a
    [BadSignatureError] of [verify]. *)
Theorem verify_signature_false_cases lib att :
  (lookup "signer_identity" att = None ->
   verify_signature lib (JObj att) = Ok false) /\
  (forall ks, lookup "signer_identity" att = Some (JStr ks) -> fromhex ks = None ->
   verify_signature lib (JObj att) = Ok false) /\
  (forall ks kb vk,
     lookup "signer_identity" att = Some (JStr ks) -> fromhex ks = Some kb ->
     from_string lib kb = Ok vk ->
     (lookup "signature" att = None ->
      verify_signature lib (JObj att) = Ok false) /\
     (forall ss, lookup "signature" att = Some (JStr ss) ->
        (fromhex ss = None -> verify_signature lib (JObj att) = Ok false) /\
        (forall sb, fromhex ss = Some sb ->
           verify lib vk sb (canonical_message att) = Raise BadSignatureError ->
           verify_signature lib (JObj att) = Ok false))).
Proof.
  unfold verify_signature. rewrite verify_signature_try_dict.
  unfold getitem, bytes_fromhex, rbind. split; [|split].
  - intros H. rewrite H. reflexivity.
  - intros ks H1 H2. rewrite H1, H2. reflexivity.
  - intros ks kb vk H1 H2 H3. rewrite H1, H2, H3. split.
    + intros H4. rewrite H4. reflexivity.
    + intros ss H4. rewrite H4. split.
      * intros H5. rewrite H5. reflexivity.
      * intros sb H5 H6. rewrite H5, H6. reflexivity.
Qed.

(** X7.  On a [dict] whose [signer_identity] and [signature], if present,
    are [str], the only exceptions that leave [verify_signature] are those
    that the package raises outside the classes of the [except] clause:
    either the function returns a boolean, or the key decoder has raised
    such an exception on the decoded key, or [verify] has raised one on the
    decoded signature and the canonical message, and that exception is the
    one that leaves the function. *)
Theorem verify_signature_raises_from_package lib att :
  (forall v, lookup "signer_identity" att = Some v -> exists s, v = JStr s) ->
  (forall v, lookup "signature" att = Some v -> exists s, v = JStr s) ->
  (exists b, verify_signature lib (JObj att) = Ok b) \/
  exists e,
    verify_signature lib (JObj att) = Raise e /\ ~ caught e /\
    exists ks kb,
      lookup "signer_identity" att = Some (JStr ks) /\ fromhex ks = Some kb /\
      (from_string lib kb = Raise e \/
       exists vk ss sb,
         from_string lib kb = Ok vk /\
         lookup "signature" att = Some (JStr ss) /\ fromhex ss = Some sb /\
         verify lib vk sb (canonical_message att) = Raise e).
Proof.
  intros Hk Hs. unfold verify_signature. rewrite verify_signature_try_dict.
  unfold getitem, bytes_fromhex, rbind.
  destruct (lookup "signer_identity" att) as [v|] eqn:Ek; [|eauto].
  destruct (Hk v eq_refl) as [ks ->].
  destruct (fromhex ks) as [kb|] eqn:Ekb; [|eauto].
  destruct (from_string lib kb) as [vk|e] eqn:E.
  - destruct (lookup "signature" att) as [v|] eqn:Es; [|eauto].
    destruct (Hs v eq_refl) as [ss ->].
    destruct (fromhex ss) as [sb|] eqn:Esb; [|eauto].
    destruct (verify lib vk sb (canonical_message att)) as [b|e] eqn:E'; [eauto|].
    destruct e; eauto; right; eexists; (split; [reflexivity|]);
      (split; [intros [H|[H|H]]; discriminate H|]);
      exists ks, kb; repeat split; auto; right; exists vk, ss, sb; auto.
  - destruct e; eauto; right; eexists; (split; [reflexivity|]);
      (split; [intros [H|[H|H]]; discriminate H|]);
      exists ks, kb; auto.
Qed.

(** ** The canonical message and the fields it binds *)

Lemma lookup_perm k d d' :
  NoDup (keys d) -> Permutation d d' -> lookup k d = lookup k d'.
Proof.
  intros Hnd Hp. induction Hp as [|[kx vx] l l' Hp IH|[kx vx] [ky vy] l|l l' l'' Hp1 IH1 Hp2 IH2].
  - reflexivity.
  - cbn in *. apply NoDup_cons_iff in Hnd as [_ Hnd]. rewrite (IH Hnd). reflexivity.
  - cbn in *. apply NoDup_cons_iff in Hnd as [Hx _].
    destruct (String.eqb_spec k kx) as [E1|]; destruct (String.eqb_spec k ky) as [E2|];
      try reflexivity.
    exfalso. apply Hx. left. congruence.
  - rewrite (IH1 Hnd). apply IH2.
    unfold keys. eapply Permutation_NoDup; [|exact Hnd]. apply Permutation_map. exact Hp1.
Qed.

(** X8.  The order in which a transaction lists its fields does not matter:
    two transactions with the same fields in another order have the same
    canonical message and the same answer from [verify_signature]. *)
Theorem field_order_irrelevant lib att att' :
  NoDup (keys att) -> Permutation att att' ->
  canonical_message att = canonical_message att' /\
  verify_signature lib (JObj att) = verify_signature lib (JObj att').
Proof.
  intros Hnd Hp.
  assert (Hnd' : NoDup (keys att')).
  { unfold keys. eapply Permutation_NoDup; [|exact Hnd]. apply Permutation_map. exact Hp. }
  assert (Hmsg : canonical_message att = canonical_message att').
  { rewrite !canonical_message_explicit by assumption.
    rewrite (canonical_fields_ext att att'); [reflexivity|].
    intros k _. apply lookup_perm; assumption. }
  split; [exact Hmsg|].
  unfold verify_signature. rewrite !verify_signature_try_dict. unfold getitem.
  rewrite Hmsg, (lookup_perm "signer_identity" att att' Hnd Hp),
    (lookup_perm "signature" att att' Hnd Hp). reflexivity.
Qed.

Lemma append_assoc_string (a b c : string) : ((a ++ b) ++ c = a ++ (b ++ c))%string.
Proof. induction a as [|x a IH]; cbn; [reflexivity | rewrite IH; reflexivity]. Qed.

Lemma unescape_escape_char c X :
  unescape_char (escape_char c ++ X) = Some (c, X).
Proof. destruct c as [[] [] [] [] [] [] [] []]; reflexivity. Qed.

Lemma escape_char_no_quote c X Y : (escape_char c ++ X)%string <> String dquote Y.
Proof. destruct c as [[] [] [] [] [] [] [] []]; cbn; discriminate. Qed.

Lemma escape_prefix_code s : forall s' X X',
  (escape s ++ String dquote X = escape s' ++ String dquote X')%string ->
  s = s' /\ X = X'.
Proof.
  induction s as [|c s IH]; intros [|c' s'] X X'; cbn [escape].
  - cbn. intros [= ->]. auto.
  - rewrite append_assoc_string. cbn. intros H. symmetry in H.
    destruct (escape_char_no_quote _ _ _ H).
  - rewrite append_assoc_string. cbn. intros H.
    destruct (escape_char_no_quote _ _ _ H).
  - rewrite !append_assoc_string. intros H.
    pose proof (f_equal unescape_char H) as Hu.
    rewrite !unescape_escape_char in Hu. injection Hu as -> Hrest.
    destruct (IH _ _ _ Hrest) as [-> ->]. auto.
Qed.

Lemma quoted_app s X :
  (quoted s ++ X = String dquote (escape s ++ String dquote X))%string.
Proof. unfold quoted. cbn. rewrite append_assoc_string. reflexivity. Qed.

Lemma encode_inj s s' : encode s = encode s' -> s = s'.
Proof.
  unfold encode. revert s'. induction s as [|c s IH]; intros [|c' s']; cbn;
    try discriminate; [reflexivity|].
  intros [= Hc Hs]. rewrite (IH _ Hs). f_equal.
  rewrite <- (ascii_of_byte_of_ascii c), <- (ascii_of_byte_of_ascii c'), Hc. reflexivity.
Qed.

Lemma canonical_message_strings att rid ref old new :
  NoDup (keys att) -> signed_strings att rid ref old new ->
  canonical_message att =
  encode ("{" ++ quoted "new_commit" ++ ": " ++ quoted new ++ ", " ++
                 quoted "old_commit" ++ ": " ++ quoted old ++ ", " ++
                 quoted "ref" ++ ": " ++ quoted ref ++ ", " ++
                 quoted "repo_id" ++ ": " ++ quoted rid ++ "}").
Proof.
  intros Hnd (Hr & Hf & Ho & Hn). rewrite canonical_message_explicit by exact Hnd.
  unfold canonical_fields. cbn [flat_map]. rewrite Hr, Hf, Ho, Hn.
  cbn [app map render dumps String.concat dumps_item fst snd].
  rewrite !append_assoc_string. reflexivity.
Qed.

Lemma append_cancel (a X Y : string) : (a ++ X = a ++ Y)%string -> X = Y.
Proof. induction a as [|c a IH]; cbn; [auto | intros [= H]; auto]. Qed.

Lemma quoted_cancel s s' X X' :
  (quoted s ++ X = quoted s' ++ X')%string -> s = s' /\ X = X'.
Proof.
  rewrite !quoted_app. intros [= H]. apply escape_prefix_code. exact H.
Qed.

(** X9.  The canonical message binds the four signed fields: two
    transactions whose signed fields are [str] and whose canonical messages
    are equal have the same [repo_id], [ref], [old_commit] and
    [new_commit].  A signature on one message cannot stand for another
    update. *)
Theorem canonical_message_binds_fields att1 att2 r1 f1 o1 n1 r2 f2 o2 n2 :
  NoDup (keys att1) -> NoDup (keys att2) ->
  signed_strings att1 r1 f1 o1 n1 ->
  signed_strings att2 r2 f2 o2 n2 ->
  canonical_message att1 = canonical_message att2 ->
  r1 = r2 /\ f1 = f2 /\ o1 = o2 /\ n1 = n2.
Proof.
  intros Hnd1 Hnd2 Hs1 Hs2 H.
  rewrite (canonical_message_strings att1 r1 f1 o1 n1 Hnd1 Hs1),
          (canonical_message_strings att2 r2 f2 o2 n2 Hnd2 Hs2) in H.
  apply encode_inj in H.
  do 3 apply append_cancel in H. apply quoted_cancel in H as [Hn H].
  do 3 apply append_cancel in H. apply quoted_cancel in H as [Ho H].
  do 3 apply append_cancel in H. apply quoted_cancel in H as [Hf H].
  do 3 apply append_cancel in H. apply quoted_cancel in H as [Hr _].
  auto.
Qed.

(** ** The checkpoint after a complete cycle; the order of the chain *)

Lemma new_blocks_none last chain :
  new_blocks last chain = [] -> Forall (fun b => index b <= last) chain.
Proof.
  unfold new_blocks. induction chain as [|b chain IH]; cbn; [constructor|].
  destruct (last <? index b) eqn:E; [discriminate|].
  intros H. constructor; [apply Z.ltb_ge; exact E | auto].
Qed.

(** X10.  When the row of the checkpoint exists and a cycle that had blocks
    to process runs to its end, the checkpoint is the index of a fetched
    block and no fetched block has a greater index: it is the highest index
    of the chain. *)
Theorem checkpoint_is_highest_index lib fault chain t :
  last_processed_block_row t <> None ->
  pending (Fetched chain) t <> [] ->
  status (process_chain lib fault (Fetched chain) t) = Completed ->
  (exists B, In B chain /\
             index B = checkpoint (store (process_chain lib fault (Fetched chain) t))) /\
  Forall (fun b => index b <= checkpoint (store (process_chain lib fault (Fetched chain) t)))
         chain.
Proof.
  intros Hrow Hpend Hst. split.
  - destruct (process_chain_spec lib fault (Fetched chain) t)
      as (done & rest & Hp & Hc & Hr & _).
    rewrite (Hr Hst), app_nil_r in Hp. clear Hr.
    destruct (committed_last _ _ _ _ Hc)
      as [(-> & _)|(bs' & B & pre & evd & -> & _ & _ & _ & _ & Hrow')]; [congruence|].
    exists B. split.
    + assert (HB : In B (pending (Fetched chain) t)).
      { rewrite Hp. apply in_or_app. right. left. reflexivity. }
      apply pending_In in HB as (ch & [= <-] & Hin & _). exact Hin.
    + rewrite (checkpoint_of_row _ _ _ Hrow').
      destruct (last_processed_block_row t); [reflexivity | tauto].
  - apply new_blocks_none. apply completed_nothing_pending; assumption.
Qed.

Section SortedUnique.
Variables (A : Type) (key : A -> Z).

Lemma filter_perm (P : A -> bool) l l' :
  Permutation l l' -> Permutation (filter P l) (filter P l').
Proof.
  induction 1 as [|x l l' _ IH|x y l|l l' l'' _ IH1 _ IH2]; cbn.
  - constructor.
  - destruct (P x); [constructor|]; exact IH.
  - destruct (P x), (P y); try reflexivity. apply perm_swap.
  - etransitivity; eassumption.
Qed.

Lemma same_key_same_element x y l :
  NoDup (map key l) -> In x l -> In y l -> key x = key y -> x = y.
Proof.
  induction l as [|z l IH]; cbn; [tauto|]. intros Hnd Hx Hy Hk.
  apply NoDup_cons_iff in Hnd as [Hz Hnd].
  destruct Hx as [->|Hx], Hy as [->|Hy]; auto.
  - exfalso. apply Hz. rewrite Hk. apply in_map. exact Hy.
  - exfalso. apply Hz. rewrite <- Hk. apply in_map. exact Hx.
Qed.

Lemma ordered_unique l1 : forall l2,
  StronglySorted (fun a b => key a <= key b) l1 ->
  StronglySorted (fun a b => key a <= key b) l2 ->
  Permutation l1 l2 -> NoDup (map key l1) -> l1 = l2.
Proof.
  induction l1 as [|x l1 IH]; intros l2 H1 H2 Hp Hnd.
  - apply Permutation_nil in Hp. auto.
  - destruct l2 as [|y l2]; [symmetry in Hp; apply Permutation_nil in Hp; discriminate|].
    assert (Hxy : x = y).
    { apply (same_key_same_element x y (x :: l1) Hnd); [left; reflexivity| |].
      - apply (Permutation_in y (Permutation_sym Hp)). left. reflexivity.
      - apply StronglySorted_inv in H1 as [_ F1], H2 as [_ F2].
        rewrite Forall_forall in F1, F2.
        assert (Hy : In y (x :: l1))
          by (apply (Permutation_in y (Permutation_sym Hp)); left; reflexivity).
        assert (Hx : In x (y :: l2)) by (apply (Permutation_in x Hp); left; reflexivity).
        destruct Hy as [->|Hy]; [reflexivity|]. destruct Hx as [->|Hx]; [reflexivity|].
        specialize (F1 _ Hy). specialize (F2 _ Hx). lia. }
    subst y. f_equal. apply IH.
    + apply StronglySorted_inv in H1. tauto.
    + apply StronglySorted_inv in H2. tauto.
    + eapply Permutation_cons_inv. exact Hp.
    + cbn in Hnd. apply NoDup_cons_iff in Hnd. tauto.
Qed.
End SortedUnique.

Lemma process_chain_of_pending lib fault chain chain' t :
  pending (Fetched chain) t = pending (Fetched chain') t ->
  process_chain lib fault (Fetched chain) t = process_chain lib fault (Fetched chain') t.
Proof.
  intros H. unfold process_chain.
  assert (Hdec : fault = Some 0%nat \/ fault <> Some 0%nat).
  { destruct fault as [[|n]|]; auto; right; discriminate. }
  destruct Hdec as [->|Hf].
  - rewrite !process_chain_try_fault0. reflexivity.
  - rewrite !(process_chain_try_run _ _ _ _ Hf), H. reflexivity.
Qed.

(** X11.  When the indices of the fetched blocks are distinct, the order in
    which the node lists them does not matter: the cycle sorts the blocks
    and ends in the same file, journal and status. *)
Theorem block_order_irrelevant lib fault chain chain' t :
  NoDup (map index chain) -> Permutation chain chain' ->
  process_chain lib fault (Fetched chain) t = process_chain lib fault (Fetched chain') t.
Proof.
  intros Hnd Hp. apply process_chain_of_pending. unfold pending.
  apply (ordered_unique _ index).
  - apply sorted_ordered.
  - apply sorted_ordered.
  - rewrite !sorted_perm. apply filter_perm. exact Hp.
  - apply (pending_NoDup chain t Hnd).
Qed.

(** ** An attestation delivered twice *)

(** X12.  An attestation that moves the head from [old] to another [new]
    and is listed twice in a row is accepted the first time and rejected the
    second, against the head that it has written itself: its signature does
    not let it be applied again. *)
Theorem replay_in_a_row_rejected lib fault b o rid ref old new rest c :
  well_formed o rid ref old new ->
  verify_signature lib (JObj o) = Ok true ->
  int64 (timestamp b) = true ->
  fault <> Some (stmts c) -> fault <> Some (S (stmts c)) ->
  fault <> Some (S (S (stmts c))) ->
  old = get_head (view c) rid ref ->
  old <> new ->
  let accepted := after_update b (JObj o) (row_of b rid ref new) c in
  process_txs lib fault b (JObj o :: JObj o :: rest) c =
  process_txs lib fault b rest (after_skip b (JObj o) (Inconsistent new) 1 accepted) /\
  get_head (view (after_skip b (JObj o) (Inconsistent new) 1 accepted)) rid ref = new.
Proof.
  intros Hwf Hsig Hts Hf1 Hf2 Hf3 Hold Hne. cbv zeta.
  assert (Hhead : get_head (view (after_update b (JObj o) (row_of b rid ref new) c))
                           rid ref = new).
  { cbn. apply get_head_insert_same. apply key_matches_refl; reflexivity. }
  split; [|exact Hhead].
  cbn [process_txs]. unfold bind at 1.
  rewrite (process_tx_accept lib fault b o rid ref old new c Hwf Hsig Hts Hf1 Hf2 Hold).
  unfold bind at 1.
  rewrite (process_tx_reject lib fault b o rid ref old new
             (after_update b (JObj o) (row_of b rid ref new) c) Hwf Hsig Hf3);
    [rewrite Hhead; reflexivity | rewrite Hhead; exact Hne].
Qed.

(** ** Taking up the work after a cycle that was cut short *)

Section Steady.
Variables a1 a2 : list entry.

Lemma steady_ret A (a : A) : steady a1 a2 (ret a).
Proof. intros c1 c2 H. cbn. auto. Qed.

Lemma steady_lift A (r : result A) : steady a1 a2 (lift r).
Proof. intros c1 c2 H. cbn. auto. Qed.

Lemma steady_bind A B (m : M A) (k : A -> M B) :
  steady a1 a2 m -> (forall a, steady a1 a2 (k a)) -> steady a1 a2 (bind m k).
Proof.
  intros Hm Hk c1 c2 H. unfold bind. destruct (Hm c1 c2 H) as [Hr Hc].
  destruct (m c1) as [r1 d1], (m c2) as [r2 d2]. cbn in Hr, Hc. subst r2.
  destruct r1 as [a|e]; [apply Hk; exact Hc | cbn; auto].
Qed.

Lemma steady_statement : steady a1 a2 (statement None).
Proof. intros c1 c2 (Hd & Hv & Hs & j & Ha1 & Ha2). cbn. unfold alike. cbn. eauto 10. Qed.

Lemma steady_get_view : steady a1 a2 get_view.
Proof. intros c1 c2 H. cbn. split; [f_equal; apply H | exact H]. Qed.

Lemma steady_set_view t : steady a1 a2 (set_view t).
Proof. intros c1 c2 (Hd & Hv & Hs & j & Ha1 & Ha2). cbn. unfold alike. cbn. eauto 10. Qed.

Lemma steady_log e : steady a1 a2 (log e).
Proof.
  intros c1 c2 (Hd & Hv & Hs & j & Ha1 & Ha2). cbn. unfold alike. cbn.
  rewrite Hs. eauto 10.
Qed.

Lemma steady_make_durable : steady a1 a2 make_durable.
Proof.
  intros c1 c2 (Hd & Hv & Hs & j & Ha1 & Ha2). cbn. unfold alike. cbn.
  rewrite Hv, Hs, Ha1, Ha2. repeat split; auto.
  exists (j ++ staged c2)%list. rewrite !app_assoc. auto.
Qed.

Ltac steady_go :=
  repeat first
    [ apply steady_statement | apply steady_get_view | apply steady_set_view
    | apply steady_log | apply steady_make_durable
    | apply steady_ret | apply steady_lift
    | apply steady_bind; [|intros ?]
    | match goal with
      | |- steady _ _ (if ?b then _ else _) => destruct b
      | |- steady _ _ (match ?x with _ => _ end) => destruct x
      end ].

Lemma steady_process_tx lib b tx : steady a1 a2 (process_tx lib None b tx).
Proof.
  unfold process_tx, select_refs, insert_refs. cbv zeta. steady_go.
Qed.

Lemma steady_process_txs lib b txs : steady a1 a2 (process_txs lib None b txs).
Proof.
  induction txs; cbn [process_txs]; [apply steady_ret|].
  apply steady_bind; [apply steady_process_tx | intros _; assumption].
Qed.

Lemma steady_process_block lib b : steady a1 a2 (process_block lib None b).
Proof.
  unfold process_block, execute_update_meta, commit.
  apply steady_bind; [apply steady_process_txs | intros _]. steady_go.
Qed.

Lemma steady_process_blocks lib bs : steady a1 a2 (process_blocks lib None bs).
Proof.
  induction bs; cbn [process_blocks]; [apply steady_ret|].
  apply steady_bind; [apply steady_process_block | intros _; assumption].
Qed.
End Steady.

Section OrderedSuffix.
Variables (A : Type) (key : A -> Z).

Lemma ordered_suffix l1 l2 :
  StronglySorted (fun a b => key a <= key b) (l1 ++ l2) ->
  StronglySorted (fun a b => key a <= key b) l2.
Proof.
  induction l1 as [|x l1 IH]; cbn; [auto|]. intros H.
  apply StronglySorted_inv in H. tauto.
Qed.
End OrderedSuffix.

Lemma committed_checkpoint_le chain t done rest j t' :
  pending (Fetched chain) t = (done ++ rest)%list ->
  committed t done j t' ->
  checkpoint t <= checkpoint t' /\ Forall (fun b => index b <= checkpoint t' \/
                                             last_processed_block_row t = None) done.
Proof.
  intros Hp Hc.
  destruct (committed_last _ _ _ _ Hc)
    as [(-> & _ & ->)|(bs' & L & pre & evd & -> & _ & _ & _ & _ & Hrow)];
    [split; [lia|constructor]|].
  rewrite (checkpoint_of_row _ _ _ Hrow).
  assert (HL : In L (pending (Fetched chain) t)).
  { rewrite Hp. apply in_or_app. left. apply in_or_app. right. left. reflexivity. }
  apply pending_In in HL as (_ & _ & _ & Hlt).
  destruct (last_processed_block_row t) eqn:E.
  - unfold checkpoint in *. rewrite E in *. split; [lia|].
    pose proof (sorted_ordered _ index (new_blocks z chain)) as Hs.
    unfold pending, checkpoint in Hp. rewrite E in Hp. rewrite Hp, <- app_assoc in Hs.
    cbn in Hs. apply ordered_before in Hs.
    apply Forall_app. split.
    + eapply Forall_impl; [|exact Hs]. cbn. auto.
    + constructor; [left; lia | constructor].
  - split; [unfold checkpoint; rewrite E; lia|].
    apply Forall_forall. auto.
Qed.

(** The blocks that a cycle has not committed are those that the next cycle
    finds pending. *)
Lemma pending_after chain t done rest j t' :
  last_processed_block_row t <> None ->
  NoDup (map index chain) ->
  pending (Fetched chain) t = (done ++ rest)%list ->
  committed t done j t' ->
  pending (Fetched chain) t' = rest.
Proof.
  intros Hrow Hnd Hp Hc.
  pose proof (pending_NoDup chain t Hnd) as Hn. rewrite Hp, map_app in Hn.
  pose proof (sorted_ordered _ index (new_blocks (checkpoint t) chain)) as Hs.
  fold (pending (Fetched chain) t) in Hs. rewrite Hp in Hs.
  destruct (committed_checkpoint_le _ _ _ _ _ _ Hp Hc) as [Hle Hdone].
  pose proof (committed_rest_ahead _ _ _ _ _ _ Hnd Hp Hc) as Hrest.
  rewrite Forall_forall in Hdone, Hrest.
  apply (ordered_unique _ index).
  - apply sorted_ordered.
  - apply (ordered_suffix _ index done rest Hs).
  - apply NoDup_Permutation.
    + apply (NoDup_map_inv index). apply (pending_NoDup chain t' Hnd).
    + apply (NoDup_map_inv index). apply NoDup_app_remove_l in Hn. exact Hn.
    + intros b. unfold pending. rewrite sorted_In, new_blocks_In. split.
      * intros [Hin Hlt].
        assert (Hb : In b (pending (Fetched chain) t)).
        { unfold pending. apply sorted_In, new_blocks_In. split; [exact Hin | lia]. }
        rewrite Hp in Hb. apply in_app_or in Hb as [Hb|Hb]; [|exact Hb].
        destruct (Hdone _ Hb) as [H|H]; [lia | contradiction].
      * intros Hb. split; [|auto].
        assert (Hb' : In b (pending (Fetched chain) t)) by (rewrite Hp; apply in_or_app; auto).
        apply pending_In in Hb' as (ch & [= <-] & Hin & _). exact Hin.
  - apply (pending_NoDup chain t' Hnd).
Qed.

(** A cycle without faults on the file that a cycle has left does what a
    single cycle without faults would have done after the blocks that the
    first has committed. *)
Lemma resume lib fault chain t :
  last_processed_block_row t <> None ->
  NoDup (map index chain) ->
  let first := process_chain lib fault (Fetched chain) t in
  let second := process_chain lib None (Fetched chain) (store first) in
  let single := process_chain lib None (Fetched chain) t in
  store second = store single /\ status second = status single /\
  (journal first ++ journal second)%list = journal single.
Proof.
  intros Hrow Hnd. cbv zeta.
  destruct (cycle_committed_prefix lib fault chain t) as (done & rest & Hp & Href & Hc & _).
  remember (process_chain lib fault (Fetched chain) t) as first eqn:Hfirst. clear Hfirst.
  pose proof (pending_after _ _ _ _ _ _ Hrow Hnd Hp Hc) as Hafter.
  assert (Hdone : exists c_done,
            process_blocks lib None done (bump (get_db_connection t)) = (Ok tt, c_done) /\
            durable c_done = store first /\ applied c_done = journal first /\
            view c_done = durable c_done /\ staged c_done = []).
  { unfold process_chain in Href. rewrite process_chain_try_run in Href by discriminate.
    rewrite (pending_prefix _ _ _ _ Hp) in Href.
    pose proof (process_blocks_wp lib None done (bump (get_db_connection t))
                  eq_refl eq_refl) as Hw. unfold wp in Hw.
    destruct (process_blocks lib None done (bump (get_db_connection t))) as [r c_done].
    cbn [fst snd] in Hw. injection Href as Hst Hj Hs.
    destruct r as [[]|e]; [|destruct e; discriminate].
    destruct Hw as (d0 & r0 & j0 & _ & _ & _ & _ & Hview & Hstaged).
    exists c_done. auto. }
  destruct Hdone as (c_done & Hrun & Hst & Hj & Hview & Hstaged).
  assert (Hsingle : process_chain lib None (Fetched chain) t =
            let (r, c) := process_blocks lib None rest c_done in
            {| store := durable c; journal := applied c; status := handlers r |}).
  { unfold process_chain. rewrite process_chain_try_run by discriminate.
    rewrite Hp, process_blocks_app. unfold bind. rewrite Hrun. reflexivity. }
  assert (Hsecond : process_chain lib None (Fetched chain) (store first) =
            let (r, c) := process_blocks lib None rest
                            (bump (get_db_connection (store first))) in
            {| store := durable c; journal := applied c; status := handlers r |}).
  { unfold process_chain. rewrite process_chain_try_run by discriminate.
    rewrite Hafter. reflexivity. }
  rewrite Hsingle, Hsecond.
  assert (Halike : alike (journal first) [] c_done (bump (get_db_connection (store first)))).
  { unfold alike. cbn. rewrite Hview, Hstaged, Hst. repeat split; auto.
    exists []. rewrite app_nil_r. auto. }
  destruct (steady_process_blocks (journal first) [] lib rest _ _ Halike) as [Hr Hc2].
  destruct (process_blocks lib None rest c_done) as [r1 d1].
  destruct (process_blocks lib None rest (bump (get_db_connection (store first))))
    as [r2 d2].
  cbn [fst snd store journal status] in *. subst r2.
  destruct Hc2 as (Hd & _ & _ & j & Ha1 & Ha2).
  rewrite Hd, Ha1, Ha2. auto.
Qed.

(** X16.  With the row of the checkpoint in place and distinct indices in
    the chain: after a cycle cut short, by a database fault or otherwise, a
    cycle without faults over the same chain brings the file to where a
    single cycle without faults would have brought it, with the same status,
    and the two journals together are the journal of that single cycle.
    Nothing is lost and nothing is applied twice. *)
Theorem recovery_after_fault lib fault chain t :
  last_processed_block_row t <> None ->
  NoDup (map index chain) ->
  let first := process_chain lib fault (Fetched chain) t in
  let second := process_chain lib None (Fetched chain) (store first) in
  let single := process_chain lib None (Fetched chain) t in
  store second = store single /\ status second = status single /\
  (journal first ++ journal second)%list = journal single.
Proof. apply resume. Qed.

(** X17.  A block on which an exception leaves [process_chain] is never
    passed: with the row of the checkpoint in place, distinct indices and no
    database fault, the next cycle over the same chain commits nothing,
    leaves the file as it is and ends with the same exception. *)
Theorem poison_block_stops_progress lib chain t e :
  last_processed_block_row t <> None ->
  NoDup (map index chain) ->
  status (process_chain lib None (Fetched chain) t) = Propagated e ->
  let stuck := store (process_chain lib None (Fetched chain) t) in
  process_chain lib None (Fetched chain) stuck =
  {| store := stuck; journal := []; status := Propagated e |}.
Proof.
  intros Hrow Hnd Hst. cbv zeta.
  destruct (resume lib None chain t Hrow Hnd) as (Hs & Hstatus & Hj).
  destruct (process_chain lib None (Fetched chain)
              (store (process_chain lib None (Fetched chain) t))) as [s j st].
  cbn [store journal status] in *.
  rewrite <- (app_nil_r (journal (process_chain lib None (Fetched chain) t))) in Hj at 2.
  apply app_inv_head in Hj. congruence.
Qed.

(** ** Transactions that are no attestations; the order of the journal *)

Lemma apply_updates_none j t :
  Forall (fun e => e_verdict e = NotAttestation) j -> apply_updates j t = t.
Proof.
  induction 1 as [|e j He _ IH]; cbn; [reflexivity|]. rewrite He. exact IH.
Qed.

(** X18.  Transactions that lack a field of an attestation are passed over:
    when no transaction of the fetched chain has the six fields, every
    verdict of the cycle is that of a transaction that is no attestation and
    the [refs] table stays as it is. *)
Theorem non_attestations_ignored lib fault chain t :
  Forall (fun b => Forall (fun tx => py_all_in required_fields tx = Ok false)
                          (transactions b)) chain ->
  Forall (fun e => e_verdict e = NotAttestation)
         (journal (process_chain lib fault (Fetched chain) t)) /\
  refs (store (process_chain lib fault (Fetched chain) t)) = refs t.
Proof.
  intros Hall.
  destruct (process_chain_spec lib fault (Fetched chain) t) as (done & rest & Hp & Hc & _).
  assert (Hj : Forall (fun e => e_verdict e = NotAttestation)
                 (journal (process_chain lib fault (Fetched chain) t))).
  { pose proof (process_chain_inv lib (checked lib)
                  (fun f b tx c => process_tx_checked lib f b tx c)
                  fault (Fetched chain) t) as Hchk.
    pose proof (committed_from_block _ _ _ _ Hc) as Hfrom.
    rewrite Forall_forall in *. intros e He.
    destruct (Hfrom e He) as (b & Hb & _ & Hin & _).
    assert (HB : In b (pending (Fetched chain) t)) by (rewrite Hp; apply in_or_app; auto).
    apply pending_In in HB as (ch & [= <-] & Hbc & _).
    specialize (Hall b Hbc). rewrite Forall_forall in Hall. specialize (Hall _ Hin).
    specialize (Hchk e He). unfold checked in Hchk.
    destruct (e_verdict e); [reflexivity| | |];
      destruct Hchk as [Hok _]; rewrite Hall in Hok; discriminate. }
  split; [exact Hj|].
  rewrite (committed_refs _ _ _ _ Hc), (apply_updates_none _ _ Hj). reflexivity.
Qed.

Section OrderedAppend.
Variables (A : Type) (R : A -> A -> Prop).

Lemma ordered_app l1 l2 :
  StronglySorted R l1 -> StronglySorted R l2 ->
  (forall x y, In x l1 -> In y l2 -> R x y) ->
  StronglySorted R (l1 ++ l2).
Proof.
  induction 1 as [|x l1 Hs IH Hf]; cbn; intros H2 Hx; [exact H2|].
  constructor; [apply IH; auto|].
  apply Forall_app. split; [exact Hf|]. apply Forall_forall. auto.
Qed.
End OrderedAppend.

Lemma same_block_ordered (v : Z) (evs : list entry) :
  Forall (fun e => e_block e = v) evs ->
  StronglySorted (fun e1 e2 => e_block e1 <= e_block e2) evs.
Proof.
  induction 1 as [|e evs He Hf IH]; constructor; [exact IH|].
  eapply Forall_impl; [|exact Hf]. cbn. intros; lia.
Qed.

Lemma committed_ordered t bs j t' :
  committed t bs j t' ->
  StronglySorted (fun a b => index a <= index b) bs ->
  StronglySorted (fun e1 e2 => e_block e1 <= e_block e2) j.
Proof.
  induction 1 as [t|t b evs t' bs j t'' Hr _ Hc IH]; intros Hs; [constructor|].
  apply StronglySorted_inv in Hs as [Hs Hb].
  destruct (replayed_shape _ _ _ _ _ Hr) as (_ & Hf & _).
  apply ordered_app; [eapply same_block_ordered; exact Hf | auto |].
  intros x y Hx Hy. rewrite Forall_forall in Hf, Hb. rewrite (Hf x Hx).
  pose proof (committed_blocks _ _ _ _ Hc) as Hblocks. rewrite Forall_forall in Hblocks.
  destruct (Hblocks y Hy) as (b' & Hin & ->). auto.
Qed.

Lemma cycle_journal_ordered lib fault n t :
  StronglySorted (fun e1 e2 => e_block e1 <= e_block e2)
                 (journal (process_chain lib fault n t)).
Proof.
  destruct (process_chain_spec lib fault n t) as (done & rest & Hp & Hc & _).
  apply (committed_ordered _ _ _ _ Hc).
  apply (ordered_prefix _ index done rest). rewrite <- Hp.
  destruct n; cbn; [constructor | apply sorted_ordered].
Qed.

Lemma cycle_keeps_row lib fault n t :
  last_processed_block_row t <> None ->
  last_processed_block_row (store (process_chain lib fault n t)) <> None.
Proof.
  intros Hrow.
  destruct (process_chain_spec lib fault n t) as (done & rest & _ & Hc & _).
  destruct (committed_last _ _ _ _ Hc)
    as [(_ & _ & ->)|(bs' & B & pre & evd & _ & _ & _ & _ & _ & Hr)]; [exact Hrow|].
  rewrite Hr. destruct (last_processed_block_row t); [discriminate | tauto].
Qed.

Lemma run_cycles_ordered lib cs : forall t,
  last_processed_block_row t <> None ->
  StronglySorted (fun e1 e2 => e_block e1 <= e_block e2) (snd (run_cycles lib cs t)).
Proof.
  induction cs as [|c cs IH]; intros t Hrow; cbn [run_cycles]; [constructor|].
  pose proof (IH _ (cycle_keeps_row lib (db_fault c) (node c) t Hrow)) as Hrest.
  pose proof (run_cycles_journal_new lib cs
                (store (process_chain lib (db_fault c) (node c) t))) as Hnew.
  destruct (run_cycles lib cs _) as [t' j]. cbn [snd] in *.
  apply ordered_app; [apply cycle_journal_ordered | exact Hrest |].
  intros x y Hx Hy.
  pose proof (cycle_journal_behind lib (db_fault c) (node c) t Hrow) as Hbehind.
  rewrite Forall_forall in Hbehind, Hnew.
  specialize (Hbehind x Hx). specialize (Hnew y Hy). lia.
Qed.

(** X19.  With the row of the checkpoint in place, the journal of any
    sequence of cycles is in the order of the block indices: transactions
    are evaluated block by block in ascending order, over the cycles as
    within one, and an entry committed in one cycle has a smaller block
    index than any entry of a later cycle. *)
Theorem journal_in_block_order lib c cs t :
  last_processed_block_row t <> None ->
  let o := process_chain lib (db_fault c) (node c) t in
  StronglySorted (fun e1 e2 => e_block e1 <= e_block e2)
                 (snd (run_cycles lib (c :: cs) t)) /\
  forall e1 e2, In e1 (journal o) -> In e2 (snd (run_cycles lib cs (store o))) ->
                e_block e1 < e_block e2.
Proof.
  intros Hrow. cbv zeta. split; [apply run_cycles_ordered; exact Hrow|].
  intros e1 e2 H1 H2.
  pose proof (cycle_journal_behind lib (db_fault c) (node c) t Hrow) as Hbehind.
  pose proof (run_cycles_journal_new lib cs
                (store (process_chain lib (db_fault c) (node c) t))) as Hnew.
  rewrite Forall_forall in Hbehind, Hnew.
  specialize (Hbehind e1 H1). specialize (Hnew e2 H2). lia.
Qed.

(** ** Starting the program again *)

Lemma setup_database_kept t :
  last_processed_block_row t <> None -> setup_database t = t.
Proof.
  unfold setup_database. destruct (last_processed_block_row t); [reflexivity | tauto].
Qed.

Lemma run_cycles_keeps_row lib cs : forall t,
  last_processed_block_row t <> None ->
  last_processed_block_row (fst (run_cycles lib cs t)) <> None.
Proof.
  induction cs as [|c cs IH]; intros t Hrow; cbn [run_cycles]; [exact Hrow|].
  specialize (IH _ (cycle_keeps_row lib (db_fault c) (node c) t Hrow)).
  destruct (run_cycles lib cs _) as [t' j]. exact IH.
Qed.

Lemma run_cycles_app lib cs1 cs2 : forall t,
  run_cycles lib (cs1 ++ cs2) t =
  (fst (run_cycles lib cs2 (fst (run_cycles lib cs1 t))),
   (snd (run_cycles lib cs1 t) ++ snd (run_cycles lib cs2 (fst (run_cycles lib cs1 t))))%list).
Proof.
  induction cs1 as [|c cs1 IH]; intros t; cbn [run_cycles app].
  - cbn. destruct (run_cycles lib cs2 t); reflexivity.
  - rewrite IH.
    destruct (run_cycles lib cs1 (store (process_chain lib (db_fault c) (node c) t)))
      as [t1 j1]. cbn [fst snd]. rewrite app_assoc. reflexivity.
Qed.

(** X14.  A [setup_database] that returns has kept the rows of [refs] and
    the checkpoint that it found, and the row of the checkpoint is there.
    No cycle removes that row, so that [setup_database] changes nothing when
    the program is started again after any cycles, and the cycles run after
    the restart leave the file and the journal that the program would have
    left without stopping. *)
Theorem restart_keeps_state lib cs1 cs2 t :
  let started := setup_database t in
  let stopped := fst (run_cycles lib cs1 started) in
  (refs started = refs t /\ checkpoint started = checkpoint t /\
   last_processed_block_row started <> None) /\
  setup_database stopped = stopped /\
  run_cycles lib (cs1 ++ cs2) started =
    (fst (run_cycles lib cs2 (setup_database stopped)),
     (snd (run_cycles lib cs1 started) ++
      snd (run_cycles lib cs2 (setup_database stopped)))%list).
Proof.
  cbv zeta.
  assert (Hstopped : setup_database (fst (run_cycles lib cs1 (setup_database t))) =
                     fst (run_cycles lib cs1 (setup_database t))).
  { apply setup_database_kept, run_cycles_keeps_row, setup_database_row. }
  split; [|split; [exact Hstopped|]].
  - unfold setup_database, checkpoint.
    destruct (last_processed_block_row t) eqn:E; cbn; rewrite ?E; repeat split; congruence.
  - rewrite Hstopped. apply run_cycles_app.
Qed.

(** * The further properties on the sample data *)

Lemma verify_signature_true_iff_witness :
  verify_signature toy_ecdsa (JObj dict_a) = Ok true.
Proof.
  apply (proj2 (verify_signature_true_iff toy_ecdsa dict_a)).
  exists (hexlify toy_key), toy_key, toy_key,
         (hexlify (toy_sign toy_key (canonical_message dict_a))),
         (toy_sign toy_key (canonical_message dict_a)), true.
  split; [vm_compute; reflexivity|]. split; [vm_compute; reflexivity|].
  split; [reflexivity|]. split; [vm_compute; reflexivity|].
  split; [vm_compute; reflexivity|]. vm_compute. reflexivity.
Defined.

Lemma verify_signature_false_cases_witness :
  lookup "signer_identity" [("repo_id", JStr "r1")] = None /\
  verify_signature toy_ecdsa (JObj [("repo_id", JStr "r1")]) = Ok false /\
  verify_signature toy_ecdsa (JObj [("signer_identity", JStr "0g")]) = Ok false /\
  verify_signature toy_ecdsa
    (JObj [("signer_identity", JStr (hexlify toy_key)); ("signature", JStr "xyz")])
  = Ok false.
Proof.
  split; [reflexivity|]. split; [|split].
  - exact (proj1 (verify_signature_false_cases toy_ecdsa [("repo_id", JStr "r1")])
             eq_refl).
  - exact (proj1 (proj2 (verify_signature_false_cases toy_ecdsa
                           [("signer_identity", JStr "0g")]))
             "0g" eq_refl eq_refl).
  - assert (Hhex : fromhex (hexlify toy_key) = Some toy_key) by (vm_compute; reflexivity).
    assert (Hkey : from_string toy_ecdsa toy_key = Ok toy_key) by reflexivity.
    exact (proj1 (proj2 (proj2 (proj2 (verify_signature_false_cases toy_ecdsa
                    [("signer_identity", JStr (hexlify toy_key));
                     ("signature", JStr "xyz")]))
                    (hexlify toy_key) toy_key toy_key eq_refl Hhex Hkey)
                    "xyz" eq_refl) eq_refl).
Defined.

Lemma verify_signature_raises_from_package_witness :
  let att := [("signer_identity", JStr "00"); ("signature", JStr "00")] in
  (forall v, lookup "signer_identity" att = Some v -> exists s, v = JStr s) /\
  (forall v, lookup "signature" att = Some v -> exists s, v = JStr s) /\
  verify_signature toy_ecdsa (JObj att) = Raise AssertionError /\
  ((exists b, verify_signature toy_ecdsa (JObj att) = Ok b) \/
   exists e,
     verify_signature toy_ecdsa (JObj att) = Raise e /\ ~ caught e /\
     exists ks kb,
       lookup "signer_identity" att = Some (JStr ks) /\ fromhex ks = Some kb /\
       (from_string toy_ecdsa kb = Raise e \/
        exists vk ss sb,
          from_string toy_ecdsa kb = Ok vk /\
          lookup "signature" att = Some (JStr ss) /\ fromhex ss = Some sb /\
          verify toy_ecdsa vk sb (canonical_message att) = Raise e)).
Proof.
  cbv zeta.
  assert (Hk : forall v,
            lookup "signer_identity" [("signer_identity", JStr "00"); ("signature", JStr "00")]
            = Some v -> exists s, v = JStr s).
  { intros v H. vm_compute in H. injection H as <-. eexists. reflexivity. }
  assert (Hs : forall v,
            lookup "signature" [("signer_identity", JStr "00"); ("signature", JStr "00")]
            = Some v -> exists s, v = JStr s).
  { intros v H. vm_compute in H. injection H as <-. eexists. reflexivity. }
  split; [exact Hk|]. split; [exact Hs|]. split; [vm_compute; reflexivity|].
  exact (verify_signature_raises_from_package toy_ecdsa
           [("signer_identity", JStr "00"); ("signature", JStr "00")] Hk Hs).
Defined.

Lemma field_order_irrelevant_witness :
  NoDup (keys dict_a) /\ Permutation dict_a (rev dict_a) /\
  canonical_message dict_a = canonical_message (rev dict_a) /\
  verify_signature toy_ecdsa (JObj dict_a) = verify_signature toy_ecdsa (JObj (rev dict_a)).
Proof.
  assert (Hnd : NoDup (keys dict_a)) by nodup_keys.
  split; [exact Hnd|]. split; [apply Permutation_rev|].
  exact (field_order_irrelevant toy_ecdsa dict_a (rev dict_a) Hnd (Permutation_rev dict_a)).
Defined.

Lemma canonical_message_binds_fields_witness :
  let att2 := (("memo", JStr "hello") :: dict_a)%list in
  NoDup (keys dict_a) /\ NoDup (keys att2) /\
  signed_strings dict_a "r1" "main" GENESIS_COMMIT a1a1 /\
  signed_strings att2 "r1" "main" GENESIS_COMMIT a1a1 /\
  canonical_message dict_a = canonical_message att2 /\
  ("r1" = "r1" /\ "main" = "main" /\ GENESIS_COMMIT = GENESIS_COMMIT /\ a1a1 = a1a1).
Proof.
  cbv zeta.
  assert (H1 : NoDup (keys dict_a)) by nodup_keys.
  assert (H2 : NoDup (keys (("memo", JStr "hello") :: dict_a))) by nodup_keys.
  assert (S1 : signed_strings dict_a "r1" "main" GENESIS_COMMIT a1a1)
    by (repeat split; reflexivity).
  assert (S2 : signed_strings (("memo", JStr "hello") :: dict_a)
                 "r1" "main" GENESIS_COMMIT a1a1) by (repeat split; reflexivity).
  assert (Hmsg : canonical_message dict_a =
                 canonical_message (("memo", JStr "hello") :: dict_a))
    by (vm_compute; reflexivity).
  split; [exact H1|]. split; [exact H2|]. split; [exact S1|]. split; [exact S2|].
  split; [exact Hmsg|].
  exact (canonical_message_binds_fields dict_a (("memo", JStr "hello") :: dict_a)
           "r1" "main" GENESIS_COMMIT a1a1 "r1" "main" GENESIS_COMMIT a1a1
           H1 H2 S1 S2 Hmsg).
Defined.

Lemma checkpoint_is_highest_index_witness :
  let chain := [block_stale; block_1] in
  let o := process_chain toy_ecdsa None (Fetched chain) fresh in
  last_processed_block_row fresh <> None /\
  pending (Fetched chain) fresh <> [] /\
  status o = Completed /\
  (exists B, In B chain /\ index B = checkpoint (store o)) /\
  Forall (fun b => index b <= checkpoint (store o)) chain.
Proof.
  cbv zeta.
  assert (Hrow : last_processed_block_row fresh <> None) by discriminate.
  assert (Hp : pending (Fetched [block_stale; block_1]) fresh <> [])
    by (vm_compute; discriminate).
  assert (Hst : status (process_chain toy_ecdsa None (Fetched [block_stale; block_1])
                          fresh) = Completed) by (vm_compute; reflexivity).
  split; [exact Hrow|]. split; [exact Hp|]. split; [exact Hst|].
  exact (checkpoint_is_highest_index toy_ecdsa None [block_stale; block_1] fresh
           Hrow Hp Hst).
Defined.

Lemma block_order_irrelevant_witness :
  NoDup (map index [block_2; block_1]) /\
  Permutation [block_2; block_1] [block_1; block_2] /\
  process_chain toy_ecdsa (Some 6%nat) (Fetched [block_2; block_1]) fresh =
  process_chain toy_ecdsa (Some 6%nat) (Fetched [block_1; block_2]) fresh.
Proof.
  assert (Hnd : NoDup (map index [block_2; block_1])).
  { cbn. constructor; [cbn; intros [H|[]]; discriminate H|].
    constructor; [intros []|constructor]. }
  split; [exact Hnd|]. split; [apply perm_swap|].
  exact (block_order_irrelevant toy_ecdsa (Some 6%nat) [block_2; block_1]
           [block_1; block_2] fresh Hnd (perm_swap block_1 block_2 [])).
Defined.

Lemma replay_in_a_row_rejected_witness :
  let c := get_db_connection fresh in
  let accepted := after_update block_1 (JObj dict_a) (row_of block_1 "r1" "main" a1a1) c in
  process_txs toy_ecdsa None block_1 [JObj dict_a; JObj dict_a] c =
  process_txs toy_ecdsa None block_1 []
    (after_skip block_1 (JObj dict_a) (Inconsistent a1a1) 1 accepted) /\
  get_head (view (after_skip block_1 (JObj dict_a) (Inconsistent a1a1) 1 accepted))
           "r1" "main" = a1a1.
Proof.
  cbv zeta.
  assert (Hsig : verify_signature toy_ecdsa (JObj dict_a) = Ok true)
    by (vm_compute; reflexivity).
  assert (Hf1 : @None nat <> Some (stmts (get_db_connection fresh))) by discriminate.
  assert (Hf2 : @None nat <> Some (S (stmts (get_db_connection fresh)))) by discriminate.
  assert (Hf3 : @None nat <> Some (S (S (stmts (get_db_connection fresh)))))
    by discriminate.
  assert (Hold : GENESIS_COMMIT = get_head (view (get_db_connection fresh)) "r1" "main")
    by (vm_compute; reflexivity).
  assert (Hne : GENESIS_COMMIT <> a1a1) by (vm_compute; discriminate).
  exact (replay_in_a_row_rejected toy_ecdsa None block_1 dict_a "r1" "main"
           GENESIS_COMMIT a1a1 [] (get_db_connection fresh)
           dict_a_well_formed Hsig eq_refl Hf1 Hf2 Hf3 Hold Hne).
Defined.

Lemma recovery_after_fault_witness :
  let chain := [block_2; block_1] in
  let first := process_chain toy_ecdsa (Some 6%nat) (Fetched chain) fresh in
  let second := process_chain toy_ecdsa None (Fetched chain) (store first) in
  let single := process_chain toy_ecdsa None (Fetched chain) fresh in
  last_processed_block_row fresh <> None /\ NoDup (map index chain) /\
  store second = store single /\ status second = status single /\
  (journal first ++ journal second)%list = journal single.
Proof.
  cbv zeta.
  assert (Hrow : last_processed_block_row fresh <> None) by discriminate.
  assert (Hnd : NoDup (map index [block_2; block_1])).
  { cbn. constructor; [cbn; intros [H|[]]; discriminate H|].
    constructor; [intros []|constructor]. }
  split; [exact Hrow|]. split; [exact Hnd|].
  exact (recovery_after_fault toy_ecdsa (Some 6%nat) [block_2; block_1] fresh Hrow Hnd).
Defined.

Lemma poison_block_stops_progress_witness :
  let chain := [block_1; block_poison] in
  let stuck := store (process_chain toy_ecdsa None (Fetched chain) fresh) in
  status (process_chain toy_ecdsa None (Fetched chain) fresh) = Propagated TypeError /\
  checkpoint stuck = 1 /\
  process_chain toy_ecdsa None (Fetched chain) stuck =
  {| store := stuck; journal := []; status := Propagated TypeError |}.
Proof.
  cbv zeta.
  assert (Hrow : last_processed_block_row fresh <> None) by discriminate.
  assert (Hnd : NoDup (map index [block_1; block_poison])).
  { cbn. constructor; [cbn; intros [H|[]]; discriminate H|].
    constructor; [intros []|constructor]. }
  assert (Hst : status (process_chain toy_ecdsa None (Fetched [block_1; block_poison])
                          fresh) = Propagated TypeError) by (vm_compute; reflexivity).
  split; [exact Hst|]. split; [vm_compute; reflexivity|].
  exact (poison_block_stops_progress toy_ecdsa [block_1; block_poison] fresh TypeError
           Hrow Hnd Hst).
Defined.

Lemma non_attestations_ignored_witness :
  Forall (fun b => Forall (fun tx => py_all_in required_fields tx = Ok false)
                          (transactions b)) [block_memos] /\
  Forall (fun e => e_verdict e = NotAttestation)
         (journal (process_chain toy_ecdsa None (Fetched [block_memos]) fresh)) /\
  refs (store (process_chain toy_ecdsa None (Fetched [block_memos]) fresh)) = refs fresh.
Proof.
  assert (H : Forall (fun b => Forall (fun tx => py_all_in required_fields tx = Ok false)
                                      (transactions b)) [block_memos]).
  { constructor; [|constructor]. constructor; [reflexivity|].
    constructor; [reflexivity|constructor]. }
  split; [exact H|].
  exact (non_attestations_ignored toy_ecdsa None [block_memos] fresh H).
Defined.

Lemma journal_in_block_order_witness :
  let c := {| node := Fetched [block_stale; block_1]; db_fault := Some 6%nat |} in
  let cs := [ {| node := Fetched [block_stale; block_1]; db_fault := None |} ] in
  let o := process_chain toy_ecdsa (db_fault c) (node c) fresh in
  last_processed_block_row fresh <> None /\
  StronglySorted (fun e1 e2 => e_block e1 <= e_block e2)
                 (snd (run_cycles toy_ecdsa (c :: cs) fresh)) /\
  forall e1 e2, In e1 (journal o) -> In e2 (snd (run_cycles toy_ecdsa cs (store o))) ->
                e_block e1 < e_block e2.
Proof.
  cbv zeta.
  assert (Hrow : last_processed_block_row fresh <> None) by discriminate.
  split; [exact Hrow|].
  exact (journal_in_block_order toy_ecdsa
           {| node := Fetched [block_stale; block_1]; db_fault := Some 6%nat |}
           [ {| node := Fetched [block_stale; block_1]; db_fault := None |} ]
           fresh Hrow).
Defined.
